(** * Predicate normalisation for the OLAP scan (be/src/exec/olap_scan_prepare.cpp)
      and the chunk-buffer limiter (be/src/exec/pipeline/scan/chunk_buffer_limiter.cpp)

    A shallow embedding of the C++ code.  Expression nodes are seen through
    the interface the code calls on them (op(), node_type(), type(),
    is_constant(), is_slotref(), get_slot_ids(), children, the column a
    constant evaluates to, the attributes of an IN predicate), vectors
    indexed by position are lists with [!!] and [<[i:=x]>], out-parameters
    are passed in and returned, and a dereference the C++ leaves undefined
    is [None]. *)

From Stdlib Require Import ZArith Lia.
From stdpp Require Import base numbers list strings pretty.

Local Open Scope Z_scope.

(* ===================================================================== *)
(** ** Types of the expression library *)
(* ===================================================================== *)

Inductive LogicalType :=
| TYPE_NULL | TYPE_BOOLEAN | TYPE_TINYINT | TYPE_SMALLINT | TYPE_INT
| TYPE_BIGINT | TYPE_LARGEINT | TYPE_FLOAT | TYPE_DOUBLE
| TYPE_VARCHAR | TYPE_CHAR | TYPE_DATE | TYPE_DATETIME | TYPE_TIME
| TYPE_DECIMALV2 | TYPE_DECIMAL32 | TYPE_DECIMAL64 | TYPE_DECIMAL128
| TYPE_JSON | TYPE_VARBINARY.

#[global] Instance LogicalType_eq_dec : EqDecision LogicalType.
Proof. solve_decision. Defined.

Record TypeDescriptor := mkType {
  ltype : LogicalType;
  precision : Z;
  scale : Z
}.

(** Modelled from the spec: the type predicates of TypeDescriptor are
    declared outside the sources at hand; "date-typed" covers DATE and
    DATETIME, "string-typed" covers CHAR and VARCHAR, and decimal-v3 is one
    of the three fixed-width decimals. *)
Definition is_date_type (t : TypeDescriptor) : bool :=
  match ltype t with TYPE_DATE | TYPE_DATETIME => true | _ => false end.

Definition is_string_type (t : TypeDescriptor) : bool :=
  match ltype t with TYPE_CHAR | TYPE_VARCHAR => true | _ => false end.

Definition is_decimalv3_type (t : TypeDescriptor) : bool :=
  match ltype t with
  | TYPE_DECIMAL32 | TYPE_DECIMAL64 | TYPE_DECIMAL128 => true
  | _ => false
  end.

Module TExprOpcode.
Inductive type :=
| EQ | NE | LT | LE | GT | GE | EQ_FOR_NULL
| CAST | COMPOUND_AND | COMPOUND_OR | COMPOUND_NOT
| FILTER_IN | FILTER_NOT_IN | INVALID_OPCODE.

#[global] Instance eq_dec : EqDecision type.
Proof. solve_decision. Defined.
End TExprOpcode.

Module TExprNodeType.
Inductive type :=
| BINARY_PRED | IN_PRED | FUNCTION_CALL | COMPOUND_PRED
| SLOT_REF | CAST_EXPR | LITERAL | OTHER.

#[global] Instance eq_dec : EqDecision type.
Proof. solve_decision. Defined.
End TExprNodeType.

Inductive SQLFilterOp :=
| FILTER_LARGER | FILTER_LARGER_OR_EQUAL
| FILTER_LESS | FILTER_LESS_OR_EQUAL
| FILTER_IN | FILTER_NOT_IN.

#[global] Instance SQLFilterOp_eq_dec : EqDecision SQLFilterOp.
Proof. solve_decision. Defined.

Inductive Status :=
| OK
| EndOfFile (msg : string)
| RuntimeError (msg : string).

Definition ok (s : Status) : bool :=
  match s with OK => true | _ => false end.

Definition SlotId := Z.

(* ===================================================================== *)
(** ** Values: dates, timestamps, columns *)
(* ===================================================================== *)

(** runtime/date_value.h: a date is its Julian day number; the six
    comparison operators compare [_julian]. *)
Record DateValue := mkDate { _julian : Z }.

#[global] Instance DateValue_eq_dec : EqDecision DateValue.
Proof. solve_decision. Defined.

(** Modelled from the spec: TimestampValue and the two conversions between
    it and DateValue are only declared in date_value.h.  A timestamp is a
    day and a time component within the day; truncating to a date drops the
    time, and a date converts to the timestamp of its midnight. *)
Record TimestampValue := mkTimestamp { ts_julian : Z; ts_time : Z }.

#[global] Instance TimestampValue_eq_dec : EqDecision TimestampValue.
Proof. solve_decision. Defined.

Definition timestamp_to_date (ts : TimestampValue) : DateValue :=
  mkDate (ts_julian ts).

Definition date_to_timestamp (d : DateValue) : TimestampValue :=
  mkTimestamp (_julian d) 0.

(** A value as it is handed to the column range or held by an IN set. *)
Inductive Datum :=
| DDate (d : DateValue)
| DTimestamp (ts : TimestampValue)
| DSlice (s : string)
| DScalar (z : Z).

#[global] Instance Datum_eq_dec : EqDecision Datum.
Proof. solve_decision. Defined.

(** The data column under a one-row constant or nullable column. *)
Inductive DataColumn :=
| TimestampColumn (ts : TimestampValue)
| DateColumn (d : DateValue)
| BinaryColumn (s : string)
| FixedColumn (raw : Z).

Record Column := mkColumn {
  only_null : bool;
  is_null0 : bool;           (* is_null(0) *)
  is_nullable : bool;
  column_is_constant : bool; (* Column::is_constant() *)
  data_column : DataColumn
}.

(** The attributes of a VectorizedInConstPredicate. *)
Record InPredicate := mkInPredicate {
  is_join_runtime_filter : bool;
  is_not_in : bool;
  null_in_set : bool;
  hash_set : list Datum
}.

(** An expression node, with what the normaliser asks of it. *)
#[local] Unset Elimination Schemes.
Inductive Expr : Type := mkExpr {
  op : TExprOpcode.type;
  node_type : TExprNodeType.type;
  type : TypeDescriptor;
  is_constant : bool;
  is_slotref : bool;
  get_slot_ids : list SlotId;
  children : list Expr;
  evaluate : option Column;        (* EVALUATE_NULL_IF_ERROR(ctx, e, nullptr) *)
  in_predicate : InPredicate;      (* read when the node is an IN predicate *)
  is_null_scalar_function : option string;
  is_dict_mapping : bool           (* dynamic_cast<DictMappingExpr*> succeeds *)
}.
#[local] Set Elimination Schemes.

Definition get_num_children (e : Expr) : nat := length (children e).

(** get_child(i): undefined past the last child. *)
Definition get_child (e : Expr) (i : nat) : option Expr := children e !! i.

Record SlotDescriptor := mkSlot {
  id : SlotId;
  slot_type : TypeDescriptor;
  col_name : string
}.

(* ===================================================================== *)
(** ** Util methods *)
(* ===================================================================== *)

Definition ignore_cast (slot : SlotDescriptor) (expr : Expr) : bool :=
  if is_date_type (slot_type slot) && is_date_type (type expr) then true
  else is_string_type (slot_type slot) && is_string_type (type expr).

(** Modelled from the spec: to_olap_filter_type is declared outside the
    sources at hand.  It maps a comparison opcode to the filter operator,
    reversed when the operands were swapped; equality is the one-value IN
    and inequality the one-value NOT IN. *)
Definition to_olap_filter_type (t : TExprOpcode.type) (opposite : bool) : SQLFilterOp :=
  match t with
  | TExprOpcode.LT => if opposite then FILTER_LARGER else FILTER_LESS
  | TExprOpcode.LE => if opposite then FILTER_LARGER_OR_EQUAL else FILTER_LESS_OR_EQUAL
  | TExprOpcode.GT => if opposite then FILTER_LESS else FILTER_LARGER
  | TExprOpcode.GE => if opposite then FILTER_LESS_OR_EQUAL else FILTER_LARGER_OR_EQUAL
  | TExprOpcode.EQ => if opposite then FILTER_NOT_IN else FILTER_IN
  | TExprOpcode.NE => if opposite then FILTER_IN else FILTER_NOT_IN
  | _ => FILTER_IN
  end.

(** The C++ value type a range is instantiated with. *)
Inductive CppType :=
| CppDateValue
| CppSlice
| CppScalar (is_decimal : bool).

(** Modelled from the spec: get_scale_factor is declared outside the sources
    at hand; the scale factor of precision [p] is ten to the [p]. *)
Definition get_scale_factor (p : Z) : Z := 10 ^ p.

Definition check_decimal_overflow (ValueType : CppType) (precision : Z) (value : Z) : bool :=
  match ValueType with
  | CppScalar true =>
      (- get_scale_factor precision <? value) && (value <? get_scale_factor precision)
  | _ => false
  end.

(** The out-parameters [value], [op] and [status] of get_predicate_value. *)
Record OutParams := mkOut {
  out_value : option Datum;     (* None: not written yet *)
  out_op : option SQLFilterOp;  (* None: not written yet *)
  out_status : Status
}.

(** Lines 66-122 of get_predicate_value: find the slot side and the constant
    side and evaluate the constant.  Nothing is written to the
    out-parameters on this stretch. *)
Inductive Operands :=
| OperandsUndefined
| OperandsRejected
| OperandsFound (reverse_op : bool) (r : Expr) (data : DataColumn).

Definition find_operands (ValueType : CppType) (slot : SlotDescriptor) (expr : Expr) : Operands :=
  if negb (get_num_children expr =? 2)%nat then OperandsRejected else
  match get_child expr 0, get_child expr 1 with
  | Some l0, Some r0 =>
      (* 1. ensure |l| points to a slot ref and |r| points to a const expression. *)
      let reverse_op := negb (is_constant r0) in
      let l := if reverse_op then r0 else l0 in
      let r := if reverse_op then l0 else r0 in
      if bool_decide (ltype (type l) ≠ ltype (slot_type slot)) && negb (ignore_cast slot l)
      then OperandsRejected else
      let l' :=
        match ValueType with
        | CppDateValue =>
            if bool_decide (op l = TExprOpcode.CAST) then get_child l 0 else Some l
        | _ => Some l
        end in
      match l' with
      | None => OperandsUndefined
      | Some l =>
          if negb (is_slotref l) || negb (is_constant r) then OperandsRejected else
          if negb (length (get_slot_ids l) =? 1)%nat
             || negb (bool_decide (get_slot_ids l !! 0%nat = Some (id slot)))
          then OperandsRejected else
          (* 3. extract the const value from |r|. *)
          match evaluate r with
          | None => OperandsRejected
          | Some column_ptr =>
              if only_null column_ptr || is_null0 column_ptr then OperandsRejected else
              if is_nullable column_ptr then OperandsFound reverse_op r (data_column column_ptr)
              else if column_is_constant column_ptr
                   then OperandsFound reverse_op r (data_column column_ptr)
                   else OperandsRejected
          end
      end
  | _, _ => OperandsUndefined
  end.

(** Lines 124-128: the operator written to [*op]. *)
Definition extracted_op (expr : Expr) (reverse_op : bool) : SQLFilterOp :=
  if bool_decide (op expr = TExprOpcode.EQ) || bool_decide (op expr = TExprOpcode.NE)
  then to_olap_filter_type (op expr) false
  else to_olap_filter_type (op expr) reverse_op.

(** Lines 130-175: the value written to [*value], with the rewrite of a
    DATE comparison against a timestamp that has a time of day. *)
Definition extract_value (ValueType : CppType) (r : Expr) (data : DataColumn)
    (op0 : SQLFilterOp) (status : Status) : option (bool * OutParams) :=
  match ValueType with
  | CppDateValue =>
      match data with
      | TimestampColumn ts =>
          let value := timestamp_to_date ts in
          if bool_decide (date_to_timestamp value ≠ ts) then
            (* |ts| has nonzero time, rewrite predicate. *)
            match op0 with
            | FILTER_LARGER_OR_EQUAL =>
                Some (true, mkOut (Some (DDate value)) (Some FILTER_LARGER) status)
            | FILTER_LESS =>
                Some (true, mkOut (Some (DDate value)) (Some FILTER_LESS_OR_EQUAL) status)
            | FILTER_LARGER | FILTER_LESS_OR_EQUAL =>
                Some (true, mkOut (Some (DDate value)) (Some op0) status)
            | FILTER_IN =>
                Some (false, mkOut (Some (DDate value)) (Some op0)
                               (EndOfFile "predicate for date always false"))
            | FILTER_NOT_IN =>
                Some (false, mkOut (Some (DDate value)) (Some op0) status)
            end
          else Some (true, mkOut (Some (DDate value)) (Some op0) status)
      | DateColumn d => Some (true, mkOut (Some (DDate d)) (Some op0) status)
      | _ => None (* down_cast<DateColumn*> of another column *)
      end
  | CppSlice =>
      match data with
      | BinaryColumn s => Some (true, mkOut (Some (DSlice s)) (Some op0) status)
      | _ => None
      end
  | CppScalar _ =>
      match data with
      | FixedColumn raw =>
          if is_decimalv3_type (type r)
          then Some (check_decimal_overflow ValueType (precision (type r)) raw,
                     mkOut (Some (DScalar raw)) (Some op0) status)
          else Some (true, mkOut (Some (DScalar raw)) (Some op0) status)
      | _ => None
      end
  end.

Definition get_predicate_value (ValueType : CppType) (slot : SlotDescriptor) (expr : Expr)
    (out : OutParams) : option (bool * OutParams) :=
  match find_operands ValueType slot expr with
  | OperandsUndefined => None
  | OperandsRejected => Some (false, out)
  | OperandsFound reverse_op r data =>
      extract_value ValueType r data (extracted_op expr reverse_op) (out_status out)
  end.

(* ===================================================================== *)
(** ** DynamicChunkBufferLimiter *)
(* ===================================================================== *)

Module DynamicChunkBufferLimiter.

Definition INT_MAX : Z := 2 ^ 31 - 1.

(** The value an [int] holds after an arithmetic result [z]. *)
Definition wrap_int (z : Z) : Z := (z + 2 ^ 31) mod 2 ^ 32 - 2 ^ 31.

(** The value of [z] converted to [size_t]. *)
Definition to_size_t (z : Z) : Z := z mod 2 ^ 64.

(** The counter is read into an [int]; the other members are [size_t]. *)
Record Limiter := mkLimiter {
  _pinned_chunks_counter : Z;
  _capacity : Z;
  _max_capacity : Z;
  _mem_limit : Z;
  _sum_row_bytes : Z;
  _num_rows : Z
}.

Definition set_counter (c : Z) (l : Limiter) : Limiter :=
  mkLimiter c (_capacity l) (_max_capacity l) (_mem_limit l) (_sum_row_bytes l) (_num_rows l).

(** [fetch_add] and [fetch_sub] return the previous value. *)
Definition fetch_add (n : Z) (l : Limiter) : Z * Limiter :=
  (_pinned_chunks_counter l, set_counter (wrap_int (_pinned_chunks_counter l + n)) l).

Definition fetch_sub (n : Z) (l : Limiter) : Z * Limiter :=
  (_pinned_chunks_counter l, set_counter (wrap_int (_pinned_chunks_counter l - n)) l).

(** The token a successful pin hands out: the counter it refers to is the
    limiter's, and it remembers the number of chunks. *)
Record Token := mkToken { num_chunks : Z }.

(** _unpin, with whether [DCHECK_GE(prev_value, 1)] holds. *)
Definition _unpin (num_chunks : Z) (l : Limiter) : bool * Limiter :=
  let '(prev_value, l) := fetch_sub num_chunks l in
  (1 <=? prev_value, l).

(** pin: the token or nullptr, whether the assertions met on the way
    hold, and the limiter after. *)
Definition pin (num_chunks : Z) (l : Limiter) : option Token * bool * Limiter :=
  let '(prev_value, l) := fetch_add num_chunks l in
  if _capacity l <? to_size_t (to_size_t prev_value + to_size_t num_chunks) then
    let '(dcheck, l) := _unpin num_chunks l in
    (None, dcheck, l)
  else (Some (mkToken num_chunks), true, l).

(** update_avg_row_bytes; [None] is the division by a zero chunk size. *)
Definition update_avg_row_bytes (added_sum_row_bytes added_num_rows max_chunk_rows : Z)
    (l : Limiter) : option Limiter :=
  let sum_row_bytes := to_size_t (_sum_row_bytes l + added_sum_row_bytes) in
  let num_rows := to_size_t (_num_rows l + added_num_rows) in
  let l := mkLimiter (_pinned_chunks_counter l) (_capacity l) (_max_capacity l)
                     (_mem_limit l) sum_row_bytes num_rows in
  let avg_row_bytes := if 0 <? num_rows then sum_row_bytes / num_rows else 0 in
  if avg_row_bytes =? 0 then Some l else
  let chunk_mem_usage := to_size_t (avg_row_bytes * max_chunk_rows) in
  if chunk_mem_usage =? 0 then None else
  let new_capacity := Z.max (_mem_limit l / chunk_mem_usage) 1 in
  Some (mkLimiter (_pinned_chunks_counter l) (Z.min new_capacity (_max_capacity l))
                  (_max_capacity l) (_mem_limit l) sum_row_bytes num_rows).

(** Modelled from the spec: the token's destructor is declared outside the
    sources at hand; releasing a token is the atomic decrement of the
    counter by the token's chunks, under the same assertion as _unpin. *)
Definition release (tok : Token) (l : Limiter) : bool * Limiter :=
  _unpin (num_chunks tok) l.

(** One caller at a time: what the callers of a limiter do to it. *)
Inductive Call :=
| CallPin (num_chunks : Z)
| CallRelease (k : nat)   (* the k-th token still held *)
| CallUpdate (added_sum_row_bytes added_num_rows max_chunk_rows : Z).

Record World := mkWorld {
  limiter : Limiter;
  held : list Token;
  dchecks : bool          (* no assertion has failed so far *)
}.

Definition call (w : World) (c : Call) : World :=
  match c with
  | CallPin n =>
      let '(tok, dcheck, l) := pin n (limiter w) in
      mkWorld l (match tok with Some t => t :: held w | None => held w end)
              (dchecks w && dcheck)
  | CallRelease k =>
      match held w !! k with
      | Some tok =>
          let '(dcheck, l) := release tok (limiter w) in
          mkWorld l (delete k (held w)) (dchecks w && dcheck)
      | None => w
      end
  | CallUpdate a b c =>
      match update_avg_row_bytes a b c (limiter w) with
      | Some l => mkWorld l (held w) (dchecks w)
      | None => w
      end
  end.

Definition run (w : World) (cs : list Call) : World := fold_left call cs w.

(** The calls that pin a positive number of chunks small enough for the
    [int] counter, given the largest capacity. *)
Definition call_ok (max_capacity : Z) (c : Call) : bool :=
  match c with
  | CallPin n => (1 <=? n) && (n + max_capacity <=? INT_MAX)
  | _ => true
  end.


(** The chunks of the tokens still held. *)
Definition held_chunks (held : list Token) : Z :=
  foldr (λ tok acc, num_chunks tok + acc) 0 held.

(** What holds of a limiter between calls. *)
Definition consistent (w : World) : Prop :=
  _pinned_chunks_counter (limiter w) = held_chunks (held w)
  ∧ Forall (λ tok, 1 ≤ num_chunks tok) (held w)
  ∧ 0 ≤ _pinned_chunks_counter (limiter w) ≤ _max_capacity (limiter w)
  ∧ 0 ≤ _capacity (limiter w) ≤ _max_capacity (limiter w)
  ∧ dchecks w = true.

(** A limiter nobody has pinned yet, with its capacity within the largest. *)
Definition fresh (l : Limiter) : Prop :=
  _pinned_chunks_counter l = 0
  ∧ 0 ≤ _capacity l ≤ _max_capacity l
  ∧ _max_capacity l ≤ INT_MAX.

End DynamicChunkBufferLimiter.

(* ===================================================================== *)
(** ** ChunkPredicateBuilder *)
(* ===================================================================== *)

Record ExprContext := mkExprContext { ctx_root : Expr }.

Definition get_root_expr (ctx : ExprContext) : option Expr :=
  if is_dict_mapping (ctx_root ctx) then get_child (ctx_root ctx) 1
  else Some (ctx_root ctx).

(** The two containers a builder is instantiated with. *)
Inductive ExprContainer :=
| RawExprContainer (root_expr : Expr)
| ExprContextContainer (expr_ctx : ExprContext).

Definition root (c : ExprContainer) : option Expr :=
  match c with
  | RawExprContainer root_expr => Some root_expr
  | ExprContextContainer expr_ctx => get_root_expr expr_ctx
  end.

Definition build_expr_context_containers (expr_contexts : list ExprContext) : list ExprContainer :=
  map ExprContextContainer expr_contexts.

Definition build_raw_expr_containers (exprs : list Expr) : list ExprContainer :=
  map RawExprContainer exprs.

Record TCondition := mkCondition {
  column_name : string;
  condition_op : string;
  condition_values : list string;
  is_index_filter_only : bool
}.

Inductive BuilderType := AND | OR.

(** [_normalized_exprs[i]], for an index of [_exprs]: the flag vector is
    created with the size of [_exprs] and never resized. *)
Definition normalized_at (flags : list bool) (i : nat) : bool :=
  bool_decide (flags !! i = Some true).

(** A [for (size_t i = 0; i < _exprs.size(); i++)] loop whose body may hit an
    undefined dereference; [continue] is the body returning its state. *)
Fixpoint for_each_from {E St : Type} (body : nat → E → St → option St)
    (i : nat) (es : list E) (s : St) : option St :=
  match es with
  | [] => Some s
  | e :: es' =>
      match body i e s with
      | None => None
      | Some s' => for_each_from body (S i) es' s'
      end
  end.

Definition for_each {E St : Type} (body : nat → E → St → option St)
    (es : list E) (s : St) : option St :=
  for_each_from body 0%nat es s.

(* ===================================================================== *)
(** ** A range algebra to run the builder on: closed integer intervals *)
(* ===================================================================== *)

Module Intervals.

Record Interval := mkInterval {
  column : string;
  low : Z;
  high : Z;
  index_filter_only : bool
}.

Definition datum_key (d : Datum) : Z :=
  match d with
  | DDate v => _julian v
  | DTimestamp ts => ts_julian ts
  | DSlice s => Z.of_nat (String.length s)
  | DScalar z => z
  end.

Definition add_range (op0 : SQLFilterOp) (d : Datum) (r : Interval) : Status * Interval :=
  let v := datum_key d in
  match op0 with
  | FILTER_LARGER => (OK, mkInterval (column r) (Z.max (low r) (v + 1)) (high r) (index_filter_only r))
  | FILTER_LARGER_OR_EQUAL => (OK, mkInterval (column r) (Z.max (low r) v) (high r) (index_filter_only r))
  | FILTER_LESS => (OK, mkInterval (column r) (low r) (Z.min (high r) (v - 1)) (index_filter_only r))
  | FILTER_LESS_OR_EQUAL => (OK, mkInterval (column r) (low r) (Z.min (high r) v) (index_filter_only r))
  | _ => (RuntimeError "AddRange failed, Invalid type", r)
  end.

(** Only a one-value IN set is an interval. *)
Definition add_fixed_values (op0 : SQLFilterOp) (values : list Datum) (r : Interval)
    : Status * Interval :=
  match op0, values with
  | FILTER_IN, [d] =>
      (OK, mkInterval (column r) (Z.max (low r) (datum_key d)) (Z.min (high r) (datum_key d))
                      (index_filter_only r))
  | _, _ => (RuntimeError "AddFixedValues failed", r)
  end.

Definition full_range (name : string) (lt : LogicalType) : Interval :=
  mkInterval name (- 2 ^ 63) (2 ^ 63 - 1) false.

Definition is_init_state (r : Interval) : bool :=
  (low r =? - 2 ^ 63) && (high r =? 2 ^ 63 - 1).

Definition set_index_filter_only (v : bool) (r : Interval) : Interval :=
  mkInterval (column r) (low r) (high r) v.

Definition is_empty_value_range (r : Interval) : bool := high r <? low r.

Definition to_olap_filter (r : Interval) : list TCondition :=
  (if low r =? - 2 ^ 63 then []
   else [mkCondition (column r) ">=" [pretty (low r)] (index_filter_only r)])
  ++ (if high r =? 2 ^ 63 - 1 then []
      else [mkCondition (column r) "<=" [pretty (high r)] (index_filter_only r)]).
End Intervals.

Inductive StatusOr (A : Type) :=
| Value (a : A)
| Error (s : Status).
Arguments Value {A} a.
Arguments Error {A} s.

(** What the builder uses and the sources at hand only declare: the column
    range (ColumnValueRange, one abstract type for every value type), the
    runtime filter and its min/max binding, the scan keys, the type traits
    and the configuration. *)
Class Collaborators := {
  ColumnValueRange : Type;
  add_fixed_values : SQLFilterOp → list Datum → ColumnValueRange → Status * ColumnValueRange;
  add_range : SQLFilterOp → Datum → ColumnValueRange → Status * ColumnValueRange;
  is_init_state : ColumnValueRange → bool;
  set_index_filter_only : bool → ColumnValueRange → ColumnValueRange;
  to_olap_filter : ColumnValueRange → list TCondition;
  is_empty_value_range : ColumnValueRange → bool;
  full_range : string → LogicalType → ColumnValueRange;
  set_precision : Z → ColumnValueRange → ColumnValueRange;
  set_scale : Z → ColumnValueRange → ColumnValueRange;

  JoinRuntimeFilter : Type;
  has_null : JoinRuntimeFilter → bool;
  GlobalDict : Type;
  (** build_minmax_range, with the dictionary decoder ([Some dict]) or the
      dummy decoder ([None]). *)
  build_minmax_range :
    option GlobalDict → ColumnValueRange → JoinRuntimeFilter → ColumnValueRange;

  OlapScanKeys : Type;
  OlapScanRange : Type;
  empty_scan_keys : OlapScanKeys;         (* OlapScanKeys() *)
  default_scan_range : OlapScanRange;     (* OlapScanRange() *)
  set_is_convertible : bool → OlapScanKeys → OlapScanKeys;
  has_range_value : OlapScanKeys → bool;
  extend_scan_key :
    ColumnValueRange → Z → OlapScanKeys → Status * (OlapScanKeys * ColumnValueRange);
  (** get_key_range(key_ranges): the status and what the vector holds after. *)
  get_key_range : OlapScanKeys → list OlapScanRange → Status * list OlapScanRange;

  RunTimeTypeTraits : LogicalType → CppType;
  type_dispatch_predicate : LogicalType → bool;   (* the type has a case *)
  lt_is_float : LogicalType → bool;
  lt_is_binary : LogicalType → bool;
  lt_is_decimal : LogicalType → bool;
  support_column_expr_predicate : LogicalType → bool;
  (** ExprContext::prepare followed by ExprContext::open, on a fresh context. *)
  prepare_and_open : Expr → Status;
  max_pushdown_conditions_per_column : Z;         (* config:: *)
  enable_short_key_for_one_column_filter : bool   (* config:: *)
}.

Section Normalizer.

Context {collaborators : Collaborators}.

Record RuntimeFilterProbeDescriptor := mkProbe {
  is_probe_slot_ref : option SlotId;         (* Some id: true, with *slot_id = id *)
  runtime_filter : option JoinRuntimeFilter  (* None: nullptr, not published yet *)
}.

Record OlapScanConjunctsManagerOptions := mkOptions {
  conjunct_ctxs_ptr : list ExprContext;
  decoded_slots : list SlotDescriptor;       (* tuple_desc->decoded_slots() *)
  key_column_names : list string;
  runtime_filters : list RuntimeFilterProbeDescriptor; (* descriptors(), in map order *)
  global_dicts : list (SlotId * GlobalDict); (* get_query_global_dict_map() *)
  scan_keys_unlimited : bool;
  max_scan_key_num : Z;
  enable_column_expr_predicate : bool
}.

#[local] Unset Elimination Schemes.
Inductive ChunkPredicateBuilder : Type := mkBuilder {
  _type : BuilderType;
  _exprs : list ExprContainer;
  _allow_partial_normalized : bool;
  _normalized_exprs : list bool;
  _child_builders : list ChunkPredicateBuilder;
  column_value_ranges : list (string * ColumnValueRange); (* std::map, in key order *)
  olap_filters : list TCondition;
  is_null_vector : list TCondition;
  rt_ranger_params : list (RuntimeFilterProbeDescriptor * SlotDescriptor);
  scan_keys : OlapScanKeys;
  slot_index_to_expr_ctxs : list (nat * list ExprContext)
}.
#[local] Set Elimination Schemes.

(** The constructor: [_normalized_exprs(_exprs.size())] is all false. *)
Definition new_builder (ty : BuilderType) (exprs : list ExprContainer)
    (allow_partial_normalized : bool) : ChunkPredicateBuilder :=
  mkBuilder ty exprs allow_partial_normalized (replicate (length exprs) false)
            [] [] [] [] [] empty_scan_keys [].

Definition set_normalized_exprs (flags : list bool) (b : ChunkPredicateBuilder) :=
  mkBuilder (_type b) (_exprs b) (_allow_partial_normalized b) flags (_child_builders b)
            (column_value_ranges b) (olap_filters b) (is_null_vector b)
            (rt_ranger_params b) (scan_keys b) (slot_index_to_expr_ctxs b).

Definition set_child_builders (cs : list ChunkPredicateBuilder) (b : ChunkPredicateBuilder) :=
  mkBuilder (_type b) (_exprs b) (_allow_partial_normalized b) (_normalized_exprs b) cs
            (column_value_ranges b) (olap_filters b) (is_null_vector b)
            (rt_ranger_params b) (scan_keys b) (slot_index_to_expr_ctxs b).

Definition set_column_value_ranges (rs : list (string * ColumnValueRange))
    (b : ChunkPredicateBuilder) :=
  mkBuilder (_type b) (_exprs b) (_allow_partial_normalized b) (_normalized_exprs b)
            (_child_builders b) rs (olap_filters b) (is_null_vector b)
            (rt_ranger_params b) (scan_keys b) (slot_index_to_expr_ctxs b).

Definition set_olap_filters (fs : list TCondition) (b : ChunkPredicateBuilder) :=
  mkBuilder (_type b) (_exprs b) (_allow_partial_normalized b) (_normalized_exprs b)
            (_child_builders b) (column_value_ranges b) fs (is_null_vector b)
            (rt_ranger_params b) (scan_keys b) (slot_index_to_expr_ctxs b).

Definition set_is_null_vector (fs : list TCondition) (b : ChunkPredicateBuilder) :=
  mkBuilder (_type b) (_exprs b) (_allow_partial_normalized b) (_normalized_exprs b)
            (_child_builders b) (column_value_ranges b) (olap_filters b) fs
            (rt_ranger_params b) (scan_keys b) (slot_index_to_expr_ctxs b).

Definition set_rt_ranger_params (ps : list (RuntimeFilterProbeDescriptor * SlotDescriptor))
    (b : ChunkPredicateBuilder) :=
  mkBuilder (_type b) (_exprs b) (_allow_partial_normalized b) (_normalized_exprs b)
            (_child_builders b) (column_value_ranges b) (olap_filters b) (is_null_vector b)
            ps (scan_keys b) (slot_index_to_expr_ctxs b).

Definition set_scan_keys (k : OlapScanKeys) (b : ChunkPredicateBuilder) :=
  mkBuilder (_type b) (_exprs b) (_allow_partial_normalized b) (_normalized_exprs b)
            (_child_builders b) (column_value_ranges b) (olap_filters b) (is_null_vector b)
            (rt_ranger_params b) k (slot_index_to_expr_ctxs b).

Definition set_slot_index_to_expr_ctxs (m : list (nat * list ExprContext))
    (b : ChunkPredicateBuilder) :=
  mkBuilder (_type b) (_exprs b) (_allow_partial_normalized b) (_normalized_exprs b)
            (_child_builders b) (column_value_ranges b) (olap_filters b) (is_null_vector b)
            (rt_ranger_params b) (scan_keys b) m.

(* ------------------------------------------------------------------- *)
(** *** The per-column passes *)
(* ------------------------------------------------------------------- *)

(** What a pass over [_exprs] works on: the flag vector, the column's
    range, and the local [Status status] that get_predicate_value writes
    to and that the pass drops when it returns. *)
Record Pass := mkPass {
  flags : list bool;
  range : ColumnValueRange;
  status : Status
}.

Definition size_t_of (z : Z) : Z := z mod 2 ^ 64.

(** [pred->hash_set().size() > config::max_pushdown_conditions_per_column],
    compared as size_t. *)
Definition too_many_values (pred : InPredicate) : bool :=
  size_t_of max_pushdown_conditions_per_column <? Z.of_nat (length (hash_set pred)).

(** [1 == l->get_slot_ids(&slot_ids) && slot_ids[0] == slot.id()] *)
Definition slot_matches (slot : SlotDescriptor) (l : Expr) : bool :=
  (length (get_slot_ids l) =? 1)%nat
  && bool_decide (get_slot_ids l !! 0%nat = Some (id slot)).

Definition type_mismatch (slot : SlotDescriptor) (l : Expr) : bool :=
  bool_decide (ltype (type l) ≠ ltype (slot_type slot)) && negb (ignore_cast slot l).

(** [range->add_fixed_values(op, values).ok()] sets the flag. *)
Definition add_fixed_values_and_mark (op0 : SQLFilterOp) (values : list Datum)
    (i : nat) (s : Pass) : Pass :=
  let '(st, range') := add_fixed_values op0 values (range s) in
  mkPass (if ok st then <[i:=true]> (flags s) else flags s) range' (status s).

(** [get_predicate_value(...)] into fresh locals, then
    [if (ok && fold(op, value).ok()) _normalized_exprs[i] = true]. *)
Definition fold_predicate_value (ValueType : CppType) (slot : SlotDescriptor)
    (root_expr : Expr) (i : nat)
    (fold : SQLFilterOp → Datum → ColumnValueRange → Status * ColumnValueRange)
    (s : Pass) : option Pass :=
  match get_predicate_value ValueType slot root_expr (mkOut None None (status s)) with
  | None => None
  | Some (false, out) => Some (mkPass (flags s) (range s) (out_status out))
  | Some (true, out) =>
      match out_value out, out_op out with
      | Some value, Some op0 =>
          let '(st, range') := fold op0 value (range s) in
          Some (mkPass (if ok st then <[i:=true]> (flags s) else flags s) range'
                       (out_status out))
      | _, _ => None
      end
  end.

(** 2. Normalize eq conjuncts like 'where col = value' *)
Definition normalize_eq_conjunct (ValueType : CppType) (slot : SlotDescriptor)
    (root_expr : Expr) (i : nat) (s : Pass) : option Pass :=
  if bool_decide (node_type root_expr = TExprNodeType.BINARY_PRED)
     && bool_decide (to_olap_filter_type (op root_expr) false = FILTER_IN)
  then fold_predicate_value ValueType slot root_expr i
         (λ _ value, add_fixed_values FILTER_IN [value]) s
  else Some s.

Definition normalize_in_or_equal_body (SlotType : LogicalType) (slot : SlotDescriptor)
    (i : nat) (c : ExprContainer) (s : Pass) : option Pass :=
  if normalized_at (flags s) i then Some s else
  root_expr ← root c;
  let eq_part := normalize_eq_conjunct (RunTimeTypeTraits SlotType) slot root_expr i in
  (* 1. Normalize in conjuncts like 'where col in (v1, v2, v3)' *)
  if bool_decide (op root_expr = TExprOpcode.FILTER_IN) then
    l ← get_child root_expr 0;
    if negb (is_slotref l) || type_mismatch slot l then Some s else
    if slot_matches slot l then
      let pred := in_predicate root_expr in
      (* join in runtime filter will handle by `_normalize_join_runtime_filter` *)
      if is_join_runtime_filter pred then Some s else
      if is_not_in pred || null_in_set pred || too_many_values pred then Some s else
      eq_part (add_fixed_values_and_mark FILTER_IN (hash_set pred) i s)
    else eq_part s
  else eq_part s.

Definition normalize_in_or_equal_generic (SlotType : LogicalType) (slot : SlotDescriptor)
    (exprs : list ExprContainer) (fl : list bool) (r : ColumnValueRange)
    : option (list bool * ColumnValueRange) :=
  s ← for_each (normalize_in_or_equal_body SlotType slot) exprs (mkPass fl r OK);
  Some (flags s, range s).

Definition as_timestamp (d : Datum) : option TimestampValue :=
  match d with DTimestamp ts => Some ts | _ => None end.

Definition as_date (d : Datum) : option DateValue :=
  match d with DDate v => Some v | _ => None end.

(** The dates of a DATETIME IN set that have no time of day. *)
Definition lossless_dates (tss : list TimestampValue) : list Datum :=
  omap (λ ts, let date := timestamp_to_date ts in
              if bool_decide (date_to_timestamp date = ts) then Some (DDate date) else None)
       tss.

(** explicit specialization for DATE. *)
Definition normalize_in_or_equal_date_body (slot : SlotDescriptor)
    (i : nat) (c : ExprContainer) (s : Pass) : option Pass :=
  if normalized_at (flags s) i then Some s else
  root_expr ← root c;
  let eq_part := normalize_eq_conjunct CppDateValue slot root_expr i in
  if bool_decide (op root_expr = TExprOpcode.FILTER_IN) then
    l ← get_child root_expr 0;
    if bool_decide (ltype (type l) ≠ TYPE_DATE) && bool_decide (ltype (type l) ≠ TYPE_DATETIME)
    then Some s else
    let pred_type := ltype (type l) in
    (* ignore the cast on DATE. *)
    l ← (if bool_decide (op l = TExprOpcode.CAST) then get_child l 0 else Some l);
    if negb (is_slotref l) then Some s else
    if slot_matches slot l then
      let pred := in_predicate root_expr in
      let finish (values : list Datum) :=
        if bool_decide (values = [])
        then Some (mkPass (flags s) (range s) (EndOfFile "const false predicate result"))
        else eq_part (add_fixed_values_and_mark FILTER_IN values i s) in
      if bool_decide (pred_type = TYPE_DATETIME) then
        if is_join_runtime_filter pred then Some s else
        if is_not_in pred || null_in_set pred || too_many_values pred then Some s else
        tss ← mapM as_timestamp (hash_set pred);
        finish (lossless_dates tss)
      else (* pred_type = TYPE_DATE *)
        if is_not_in pred || null_in_set pred || too_many_values pred then Some s else
        ds ← mapM as_date (hash_set pred);
        finish (DDate <$> ds)
    else eq_part s
  else eq_part s.

Definition normalize_in_or_equal_predicate (SlotType : LogicalType) (slot : SlotDescriptor)
    (exprs : list ExprContainer) (fl : list bool) (r : ColumnValueRange)
    : option (list bool * ColumnValueRange) :=
  if bool_decide (SlotType = TYPE_DATE) then
    s ← for_each (normalize_in_or_equal_date_body slot) exprs (mkPass fl r OK);
    Some (flags s, range s)
  else normalize_in_or_equal_generic SlotType slot exprs fl r.

Definition normalize_binary_body (SlotType : LogicalType) (slot : SlotDescriptor)
    (i : nat) (c : ExprContainer) (s : Pass) : option Pass :=
  if normalized_at (flags s) i then Some s else
  root_expr ← root c;
  if bool_decide (node_type root_expr ≠ TExprNodeType.BINARY_PRED) then Some s else
  fold_predicate_value (RunTimeTypeTraits SlotType) slot root_expr i add_range s.

Definition normalize_binary_predicate (SlotType : LogicalType) (slot : SlotDescriptor)
    (exprs : list ExprContainer) (fl : list bool) (r : ColumnValueRange)
    : option (list bool * ColumnValueRange) :=
  s ← for_each (normalize_binary_body SlotType slot) exprs (mkPass fl r OK);
  Some (flags s, range s).

Definition normalize_not_in_or_not_equal_body (SlotType : LogicalType) (slot : SlotDescriptor)
    (i : nat) (c : ExprContainer) (s : Pass) : option Pass :=
  if normalized_at (flags s) i then Some s else
  root_expr ← root c;
  (* handle not equal *)
  s ← (if bool_decide (node_type root_expr = TExprNodeType.BINARY_PRED)
          && bool_decide (op root_expr = TExprOpcode.NE)
       then fold_predicate_value (RunTimeTypeTraits SlotType) slot root_expr i
              (λ _ value, add_fixed_values FILTER_NOT_IN [value]) s
       else Some s);
  (* handle not in *)
  if bool_decide (node_type root_expr = TExprNodeType.IN_PRED)
     && bool_decide (op root_expr = TExprOpcode.FILTER_NOT_IN) then
    l ← get_child root_expr 0;
    if negb (is_slotref l) || type_mismatch slot l then Some s else
    if slot_matches slot l then
      let pred := in_predicate root_expr in
      if negb (is_not_in pred) || null_in_set pred || too_many_values pred then Some s else
      Some (add_fixed_values_and_mark FILTER_NOT_IN (hash_set pred) i s)
    else Some s
  else Some s.

Definition normalize_not_in_or_not_equal_predicate (SlotType : LogicalType)
    (slot : SlotDescriptor) (exprs : list ExprContainer) (fl : list bool)
    (r : ColumnValueRange) : option (list bool * ColumnValueRange) :=
  s ← for_each (normalize_not_in_or_not_equal_body SlotType slot) exprs (mkPass fl r OK);
  Some (flags s, range s).

Definition normalize_is_null_body (slot : SlotDescriptor)
    (i : nat) (c : ExprContainer) (s : list bool * list TCondition)
    : option (list bool * list TCondition) :=
  let '(fl, nulls) := s in
  if normalized_at fl i then Some s else
  root_expr ← root c;
  if bool_decide (node_type root_expr = TExprNodeType.FUNCTION_CALL) then
    match is_null_scalar_function root_expr with
    | Some is_null_str =>
        e ← get_child root_expr 0;
        if negb (is_slotref e) then Some s else
        if negb (slot_matches slot e) then Some s else
        let is_null := mkCondition (col_name slot) "is" [is_null_str] false in
        Some (<[i:=true]> fl, nulls ++ [is_null])
    | None => Some s
    end
  else Some s.

Definition normalize_is_null_predicate (slot : SlotDescriptor)
    (exprs : list ExprContainer) (fl : list bool) (nulls : list TCondition)
    : option (list bool * list TCondition) :=
  for_each (normalize_is_null_body slot) exprs (fl, nulls).

(** normalize_join_runtime_filter, first loop: the IN runtime filters. *)
Definition normalize_in_runtime_filter_body (slot : SlotDescriptor)
    (i : nat) (c : ExprContainer) (s : list bool * ColumnValueRange)
    : option (list bool * ColumnValueRange) :=
  let '(fl, r) := s in
  if normalized_at fl i then Some s else
  root_expr ← root c;
  if bool_decide (op root_expr = TExprOpcode.FILTER_IN) then
    l ← get_child root_expr 0;
    if negb (is_slotref l) || type_mismatch slot l then Some s else
    if slot_matches slot l then
      let pred := in_predicate root_expr in
      if negb (is_join_runtime_filter pred) then Some s else
      (* Ensure we don't compute this conjuncts again in olap scanner *)
      let fl := <[i:=true]> fl in
      if is_not_in pred || null_in_set pred || too_many_values pred then Some (fl, r) else
      Some (fl, (add_fixed_values FILTER_IN (hash_set pred) r).2)
    else Some s
  else Some s.

(** Second loop: the bloom runtime filters, one descriptor at a time. *)
Definition bind_runtime_filter (opts : OlapScanConjunctsManagerOptions)
    (SlotType : LogicalType) (slot : SlotDescriptor)
    (s : ColumnValueRange * list (RuntimeFilterProbeDescriptor * SlotDescriptor))
    (desc : RuntimeFilterProbeDescriptor)
    : ColumnValueRange * list (RuntimeFilterProbeDescriptor * SlotDescriptor) :=
  let '(r, unarrived) := s in
  (* probe expr is slot ref and slot id matches. *)
  match is_probe_slot_ref desc with
  | None => s
  | Some slot_id =>
      if bool_decide (slot_id ≠ id slot) then s else
      (* runtime filter existed and does not have null. *)
      match runtime_filter desc with
      | None => (r, unarrived ++ [(desc, slot)])
      | Some rf =>
          if has_null rf then s else
          let r := if is_init_state r then set_index_filter_only true r else r in
          let dict :=
            if bool_decide (SlotType = TYPE_VARCHAR)
            then snd <$> list_find (λ kv, kv.1 = slot_id) (global_dicts opts)
            else None in
          (build_minmax_range (snd <$> dict) r rf, unarrived)
      end
  end.

Definition bind_runtime_filters (opts : OlapScanConjunctsManagerOptions)
    (SlotType : LogicalType) (slot : SlotDescriptor)
    (r : ColumnValueRange) (unarrived : list (RuntimeFilterProbeDescriptor * SlotDescriptor))
    : ColumnValueRange * list (RuntimeFilterProbeDescriptor * SlotDescriptor) :=
  fold_left (bind_runtime_filter opts SlotType slot) (runtime_filters opts) (r, unarrived).

(** The conjunct in [c] is an IN predicate on the slot that is tagged as
    a join runtime filter: what the first loop of
    normalize_join_runtime_filter looks for. *)
Definition is_in_runtime_filter_of (slot : SlotDescriptor) (c : ExprContainer) : bool :=
  match root c with
  | Some root_expr =>
      bool_decide (op root_expr = TExprOpcode.FILTER_IN)
      && match get_child root_expr 0 with
         | Some l =>
             is_slotref l && negb (type_mismatch slot l) && slot_matches slot l
             && is_join_runtime_filter (in_predicate root_expr)
         | None => false
         end
  | None => false
  end.

(** The value set of an IN runtime filter that is not folded into the range. *)
Definition in_set_skipped (pred : InPredicate) : bool :=
  is_not_in pred || null_in_set pred || too_many_values pred.

(** The descriptors the second loop acts on for [slot]. *)
Definition probes_slot (slot : SlotDescriptor) (desc : RuntimeFilterProbeDescriptor) : bool :=
  bool_decide (is_probe_slot_ref desc = Some (id slot)).

(** A descriptor that cannot bound a range: its filter is not published
    yet, or is published with NULL in its domain. *)
Definition unusable (desc : RuntimeFilterProbeDescriptor) : bool :=
  match runtime_filter desc with
  | None => true
  | Some rf => has_null rf
  end.

Definition unarrived_for (slot : SlotDescriptor) (descs : list RuntimeFilterProbeDescriptor)
    : list (RuntimeFilterProbeDescriptor * SlotDescriptor) :=
  (λ desc, (desc, slot))
    <$> filter (λ desc, probes_slot slot desc = true ∧ runtime_filter desc = None) descs.

(** Flags are only ever set: the vector keeps its size and every flag
    that is set stays set. *)
Definition flags_grow (fl fl' : list bool) : Prop :=
  length fl' = length fl ∧ ∀ j, fl !! j = Some true → fl' !! j = Some true.

Definition normalize_join_runtime_filter (opts : OlapScanConjunctsManagerOptions)
    (SlotType : LogicalType) (slot : SlotDescriptor) (r : ColumnValueRange)
    (b : ChunkPredicateBuilder) : option (ColumnValueRange * ChunkPredicateBuilder) :=
  (* in runtime filter *)
  '(fl, r) ← for_each (normalize_in_runtime_filter_body slot) (_exprs b)
                      (_normalized_exprs b, r);
  (* bloom runtime filter *)
  let '(r, unarrived) := bind_runtime_filters opts SlotType slot r (rt_ranger_params b) in
  Some (r, set_rt_ranger_params unarrived (set_normalized_exprs fl b)).

Definition normalize_predicate (opts : OlapScanConjunctsManagerOptions)
    (SlotType : LogicalType) (slot : SlotDescriptor) (r : ColumnValueRange)
    (b : ChunkPredicateBuilder) : option (ColumnValueRange * ChunkPredicateBuilder) :=
  '(fl, r) ← normalize_in_or_equal_predicate SlotType slot (_exprs b) (_normalized_exprs b) r;
  '(fl, r) ← normalize_binary_predicate SlotType slot (_exprs b) fl r;
  '(fl, r) ← normalize_not_in_or_not_equal_predicate SlotType slot (_exprs b) fl r;
  '(fl, nulls) ← normalize_is_null_predicate slot (_exprs b) fl (is_null_vector b);
  (* Must handle join runtime filter last *)
  normalize_join_runtime_filter opts SlotType slot r
    (set_is_null_vector nulls (set_normalized_exprs fl b)).

(** A std::map as an association list in key order. *)
Fixpoint LookupOrInsert {V : Type} (m : list (string * V)) (k : string) (v : V)
    : list (string * V) * V :=
  match m with
  | [] => ([(k, v)], v)
  | (k', v') :: m' =>
      if String.eqb k k' then (m, v')
      else if String.ltb k k' then ((k, v) :: m, v)
      else let '(m'', x) := LookupOrInsert m' k v in ((k', v') :: m'', x)
  end.

Fixpoint map_count {V : Type} (m : list (string * V)) (k : string) : nat :=
  match m with
  | [] => 0%nat
  | (k', _) :: m' => if String.eqb k k' then 1%nat else map_count m' k
  end.

Fixpoint map_at {V : Type} (m : list (string * V)) (k : string) : option V :=
  match m with
  | [] => None
  | (k', v') :: m' => if String.eqb k k' then Some v' else map_at m' k
  end.

(** Writing through the reference LookupOrInsert or operator[] returned. *)
Fixpoint map_store {V : Type} (m : list (string * V)) (k : string) (v : V)
    : list (string * V) :=
  match m with
  | [] => []
  | (k', v') :: m' =>
      if String.eqb k k' then (k', v) :: m' else (k', v') :: map_store m' k v
  end.

(** ColumnRangeBuilder::operator()<ltype> *)
Definition ColumnRangeBuilder (opts : OlapScanConjunctsManagerOptions) (lt : LogicalType)
    (slot : SlotDescriptor) (parent : ChunkPredicateBuilder) : option ChunkPredicateBuilder :=
  if bool_decide (lt = TYPE_TIME) || bool_decide (lt = TYPE_NULL) || bool_decide (lt = TYPE_JSON)
     || lt_is_float lt || lt_is_binary lt
  then Some parent else
  (* Treat tinyint and boolean as int *)
  let limit_type :=
    if bool_decide (lt = TYPE_TINYINT) || bool_decide (lt = TYPE_BOOLEAN) then TYPE_INT else lt in
  (* Map TYPE_CHAR to TYPE_VARCHAR *)
  let mapping_type := if bool_decide (lt = TYPE_CHAR) then TYPE_VARCHAR else lt in
  let with_precision (r : ColumnValueRange) :=
    if lt_is_decimal limit_type
    then set_scale (scale (slot_type slot)) (set_precision (precision (slot_type slot)) r)
    else r in
  let full := with_precision (full_range (col_name slot) lt) in
  let '(ranges, v) := LookupOrInsert (column_value_ranges parent) (col_name slot) full in
  '(r, parent) ← normalize_predicate opts mapping_type slot (with_precision v)
                   (set_column_value_ranges ranges parent);
  Some (set_column_value_ranges (map_store (column_value_ranges parent) (col_name slot) r)
                                parent).

(** The types normalize_expressions builds a range and runs the passes for. *)
Definition builds_range (lt : LogicalType) : bool :=
  type_dispatch_predicate lt
  && negb (bool_decide (lt = TYPE_TIME) || bool_decide (lt = TYPE_NULL)
           || bool_decide (lt = TYPE_JSON) || lt_is_float lt || lt_is_binary lt).

Definition normalize_expressions (opts : OlapScanConjunctsManagerOptions)
    (b : ChunkPredicateBuilder) : option ChunkPredicateBuilder :=
  foldl (λ acc slot,
           b ← acc;
           if type_dispatch_predicate (ltype (slot_type slot))
           then ColumnRangeBuilder opts (ltype (slot_type slot)) slot b
           else Some b)
        (Some b) (decoded_slots opts).

(** The loop of build_olap_filters over the ranges still to visit. *)
Fixpoint build_olap_filters_from (ranges : list (string * ColumnValueRange))
    (filters_so_far : list TCondition) : Status * list TCondition :=
  match ranges with
  | [] => (OK, filters_so_far)
  | (_, r) :: ranges' =>
      let filters := to_olap_filter r in
      if is_empty_value_range r
      then (EndOfFile "EOF, Filter by always false condition", filters_so_far)
      else build_olap_filters_from ranges' (filters_so_far ++ filters)
  end.

Definition build_olap_filters (b : ChunkPredicateBuilder) : Status * ChunkPredicateBuilder :=
  let '(st, filters) := build_olap_filters_from (column_value_ranges b) [] in
  (st, set_olap_filters filters b).

(** The ranges in front of the first empty one. *)
Fixpoint before_first_empty (ranges : list (string * ColumnValueRange))
    : list (string * ColumnValueRange) :=
  match ranges with
  | [] => []
  | (name, r) :: ranges' =>
      if is_empty_value_range r then [] else (name, r) :: before_first_empty ranges'
  end.

Definition filters_of (ranges : list (string * ColumnValueRange)) : list TCondition :=
  concat ((λ kv, to_olap_filter kv.2) <$> ranges).

Definition has_empty_range (ranges : list (string * ColumnValueRange)) : Prop :=
  ∃ name r, (name, r) ∈ ranges ∧ is_empty_value_range r = true.

Definition EOF_always_false : Status := EndOfFile "EOF, Filter by always false condition".

(** The number of leading key columns that have a range. *)
Fixpoint conditional_key_columns (ranges : list (string * ColumnValueRange))
    (names : list string) : nat :=
  match names with
  | [] => 0%nat
  | key_column_name :: names' =>
      if (map_count ranges key_column_name =? 0)%nat then 0%nat
      else S (conditional_key_columns ranges names')
  end.

Fixpoint extend_scan_keys (names : list string) (max_scan_key_num : Z)
    (s : OlapScanKeys * list (string * ColumnValueRange))
    : option (OlapScanKeys * list (string * ColumnValueRange)) :=
  match names with
  | [] => Some s
  | name :: names' =>
      let '(keys, ranges) := s in
      if has_range_value keys then Some s else
      r ← map_at ranges name;
      let '(st, (keys, r)) := extend_scan_key r max_scan_key_num keys in
      let s := (keys, map_store ranges name r) in
      if negb (ok st) then Some s else extend_scan_keys names' max_scan_key_num s
  end.

Definition build_scan_keys (opts : OlapScanConjunctsManagerOptions)
    (unlimited : bool) (max_scan_key_num : Z) (b : ChunkPredicateBuilder)
    : option (Status * ChunkPredicateBuilder) :=
  let b := set_scan_keys (set_is_convertible unlimited (scan_keys b)) b in
  let n := conditional_key_columns (column_value_ranges b) (key_column_names opts) in
  if enable_short_key_for_one_column_filter || (1 <? n)%nat then
    '(keys, ranges) ← extend_scan_keys (take n (key_column_names opts)) max_scan_key_num
                        (scan_keys b, column_value_ranges b);
    Some (OK, set_column_value_ranges ranges (set_scan_keys keys b))
  else Some (OK, b).

(* ------------------------------------------------------------------- *)
(** *** Column expression predicates and the AND/OR sub-builders *)
(* ------------------------------------------------------------------- *)

Definition expr_context (c : ExprContainer) : StatusOr ExprContext :=
  match c with
  | RawExprContainer root_expr =>
      match prepare_and_open root_expr with
      | OK => Value (mkExprContext root_expr)
      | st => Error st
      end
  | ExprContextContainer expr_ctx => Value expr_ctx
  end.

(** [slot_id_to_index]: std::map::insert keeps the first index of an id. *)
Definition slot_id_to_index (slots : list SlotDescriptor) (slot_id : SlotId) : option nat :=
  fst <$> list_find (λ slot_desc, id slot_desc = slot_id) slots.

Fixpoint ctxs_push (m : list (nat * list ExprContext)) (index : nat)
    (new : list ExprContext) : list (nat * list ExprContext) :=
  match m with
  | [] => [(index, new)]
  | (k, v) :: m' =>
      if (index =? k)%nat then (k, v ++ new) :: m'
      else if (index <? k)%nat then (index, new) :: m
      else (k, v) :: ctxs_push m' index new
  end.

(** The loop of build_column_expr_predicates from index [i] on.  The
    function is declared void and leaves through ASSIGN_OR_RETURN when the
    context cannot be prepared: the loop stops there, the entry of the
    slot index already being in the map. *)
Fixpoint build_column_expr_predicates_from (slots : list SlotDescriptor) (i : nat)
    (es : list ExprContainer) (s : list bool * list (nat * list ExprContext))
    : option (list bool * list (nat * list ExprContext)) :=
  match es with
  | [] => Some s
  | c :: es' =>
      let next := build_column_expr_predicates_from slots (S i) es' in
      let '(fl, m) := s in
      if normalized_at fl i then next s else
      root_expr ← root c;
      let slot_ids := get_slot_ids root_expr in
      if negb (length slot_ids =? 1)%nat then next s else
      match slot_ids !! 0%nat ≫= slot_id_to_index slots with
      | None => next s
      | Some index =>
          slot_desc ← slots !! index;
          (* note(yan): we only handles scalar type now to avoid complex type mismatch. *)
          if negb (support_column_expr_predicate (ltype (slot_type slot_desc))) then next s else
          let m := ctxs_push m index [] in
          match expr_context c with
          | Error _ => Some (fl, m)
          | Value expr_ctx => next (<[i:=true]> fl, ctxs_push m index [expr_ctx])
          end
      end
  end.

Definition build_column_expr_predicates (opts : OlapScanConjunctsManagerOptions)
    (b : ChunkPredicateBuilder) : option ChunkPredicateBuilder :=
  '(fl, m) ← build_column_expr_predicates_from (decoded_slots opts) 0 (_exprs b)
               (_normalized_exprs b, slot_index_to_expr_ctxs b);
  Some (set_slot_index_to_expr_ctxs m (set_normalized_exprs fl b)).

(** _normalize_and_or_predicate, given how a child builder of each kind
    over the children of [root_expr] parses: [parse_child root_expr ty] is
    [child_builder.parse_conjuncts()] with the child builder after it.  The
    result is the returned StatusOr and the parent's [_child_builders]. *)
Definition normalize_and_or_predicate_with
    (parse_child : Expr → BuilderType → option (StatusOr bool * ChunkPredicateBuilder))
    (root_expr : Expr) (child_builders : list ChunkPredicateBuilder)
    : option (StatusOr bool * list ChunkPredicateBuilder) :=
  let via (ty : BuilderType) : option (StatusOr bool * list ChunkPredicateBuilder) :=
    '(res, child_builder) ← parse_child root_expr ty;
    match res : StatusOr bool with
    | Error st => Some (Error st, child_builders)
    | Value normalized =>
        Some (Value normalized,
              if normalized then child_builders ++ [child_builder] else child_builders)
    end in
  if bool_decide (op root_expr = TExprOpcode.COMPOUND_OR) then via OR
  else if bool_decide (op root_expr = TExprOpcode.COMPOUND_AND) then via AND
  else Some (Value false, child_builders).

(** The loop of _normalize_and_or_predicates: [step e] is
    [_normalize_and_or_predicate] on the root of the container [e]. *)
Definition normalize_and_or_loop {E : Type}
    (step : E → list ChunkPredicateBuilder →
            option (StatusOr bool * list ChunkPredicateBuilder))
    (allow_partial_normalized : bool)
    : list E → nat → list bool → list ChunkPredicateBuilder →
      option (StatusOr bool * (list bool * list ChunkPredicateBuilder)) :=
  fix go es i fl child_builders :=
    match es with
    | [] => Some (Value true, (fl, child_builders))
    | e :: es' =>
        if normalized_at fl i then go es' (S i) fl child_builders else
        match step e child_builders with
        | None => None
        | Some (Error st, child_builders) => Some (Error st, (fl, child_builders))
        | Some (Value normalized, child_builders) =>
            if negb normalized && negb allow_partial_normalized
            then Some (Value false, (fl, child_builders))
            else go es' (S i) (<[i:=normalized]> fl) child_builders
        end
    end.

(** The child builder _normalize_and_or_predicate makes over the children of
    [root_expr], when its parse_conjuncts reaches the AND/OR loop: partial
    normalisation is not allowed, so only the column expression predicates
    have been looked for. *)
Definition child_after_column_exprs (opts : OlapScanConjunctsManagerOptions)
    (root_expr : Expr) (ty : BuilderType) : option ChunkPredicateBuilder :=
  let child_builder :=
    new_builder ty (build_raw_expr_containers (children root_expr)) false in
  if enable_column_expr_predicate opts
  then build_column_expr_predicates opts child_builder
  else Some child_builder.

(** [parse_conjuncts()] of the child builder that _normalize_and_or_predicate
    makes over the children of [root_expr]: partial normalisation is not
    allowed, so the three passes of the root are skipped. *)
Fixpoint parse_child (opts : OlapScanConjunctsManagerOptions) (root_expr : Expr)
    (ty : BuilderType) {struct root_expr}
    : option (StatusOr bool * ChunkPredicateBuilder) :=
  child_builder ← child_after_column_exprs opts root_expr ty;
  '(res, (fl, cs)) ←
     normalize_and_or_loop
       (λ e, normalize_and_or_predicate_with (parse_child opts) e)
       false (children root_expr) 0%nat
       (_normalized_exprs child_builder) (_child_builders child_builder);
  Some (res, set_child_builders cs (set_normalized_exprs fl child_builder)).

Definition _normalize_and_or_predicate (opts : OlapScanConjunctsManagerOptions)
    (root_expr : Expr) (child_builders : list ChunkPredicateBuilder)
    : option (StatusOr bool * list ChunkPredicateBuilder) :=
  normalize_and_or_predicate_with (parse_child opts) root_expr child_builders.

(** What _normalize_and_or_predicate returns for [root_expr], the parent's
    child builders aside. *)
Definition and_or_verdict (opts : OlapScanConjunctsManagerOptions) (root_expr : Expr)
    : option (StatusOr bool) :=
  fst <$> _normalize_and_or_predicate opts root_expr [].

Definition _normalize_and_or_predicates (opts : OlapScanConjunctsManagerOptions)
    (b : ChunkPredicateBuilder) : option (StatusOr bool * ChunkPredicateBuilder) :=
  '(res, (fl, cs)) ←
     normalize_and_or_loop
       (λ c cs, root_expr ← root c; _normalize_and_or_predicate opts root_expr cs)
       (_allow_partial_normalized b) (_exprs b) 0%nat
       (_normalized_exprs b) (_child_builders b);
  Some (res, set_child_builders cs (set_normalized_exprs fl b)).

Definition parse_conjuncts (opts : OlapScanConjunctsManagerOptions)
    (b : ChunkPredicateBuilder) : option (StatusOr bool * ChunkPredicateBuilder) :=
  let passes (b : ChunkPredicateBuilder) : option (Status * ChunkPredicateBuilder) :=
    if _allow_partial_normalized b then
      b ← normalize_expressions opts b;
      let '(st, b) := build_olap_filters b in
      if negb (ok st) then Some (st, b) else
      build_scan_keys opts (scan_keys_unlimited opts) (max_scan_key_num opts) b
    else Some (OK, b) in
  '(st, b) ← passes b;
  if negb (ok st) then Some (Error st, b) else
  b ← (if enable_column_expr_predicate opts
       then build_column_expr_predicates opts b else Some b);
  _normalize_and_or_predicates opts b.

Definition get_key_ranges (b : ChunkPredicateBuilder) (key_ranges : list OlapScanRange)
    : Status * list OlapScanRange :=
  let '(st, key_ranges) := get_key_range (scan_keys b) key_ranges in
  if negb (ok st) then (st, key_ranges) else
  if bool_decide (key_ranges = []) then (OK, key_ranges ++ [default_scan_range])
  else (OK, key_ranges).

(** [v[i]] on a std::vector: undefined out of range. *)
Definition vector_at {A : Type} (v : list A) (i : nat) : option A := v !! i.

(** is_pred_normalized: [None] would be a read past the flag vector. *)
Definition is_pred_normalized (b : ChunkPredicateBuilder) (index : nat) : option bool :=
  if (index <? length (_normalized_exprs b))%nat
  then vector_at (_normalized_exprs b) index
  else Some false.

(* ------------------------------------------------------------------- *)
(** *** OlapScanConjunctsManager *)
(* ------------------------------------------------------------------- *)

Record OlapScanConjunctsManager := mkManager {
  _opts : OlapScanConjunctsManagerOptions;
  _root_builder : ChunkPredicateBuilder
}.

Definition new_manager (opts : OlapScanConjunctsManagerOptions) : OlapScanConjunctsManager :=
  mkManager opts (new_builder AND (build_expr_context_containers (conjunct_ctxs_ptr opts)) true).

(** The loop of get_not_push_down_conjuncts from index [i] on;
    [conjunct_ctxs] is what [_opts.conjunct_ctxs_ptr] points to when the
    residual list is asked for. *)
Fixpoint get_not_push_down_conjuncts_from (root_builder : ChunkPredicateBuilder) (i : nat)
    (ctxs : list ExprContext) (predicates : list ExprContext) : option (list ExprContext) :=
  match ctxs with
  | [] => Some predicates
  | ctx :: ctxs' =>
      normalized ← is_pred_normalized root_builder i;
      get_not_push_down_conjuncts_from root_builder (S i) ctxs'
        (if negb normalized then predicates ++ [ctx] else predicates)
  end.

Definition get_not_push_down_conjuncts (root_builder : ChunkPredicateBuilder)
    (conjunct_ctxs : list ExprContext) (predicates : list ExprContext)
    : option (list ExprContext) :=
  get_not_push_down_conjuncts_from root_builder 0 conjunct_ctxs predicates.

(* ------------------------------------------------------------------- *)
(** *** Notions the properties are stated with *)
(* ------------------------------------------------------------------- *)

Definition pass_grows (s s' : Pass) : Prop := flags_grow (flags s) (flags s').

Definition fst_grows {A : Type} (s s' : list bool * A) : Prop := flags_grow s.1 s'.1.

(** What every step of a builder preserves: its conjuncts and its mode,
    with flags only being set. *)
Definition builder_grows (b b' : ChunkPredicateBuilder) : Prop :=
  _exprs b' = _exprs b
  ∧ _allow_partial_normalized b' = _allow_partial_normalized b
  ∧ flags_grow (_normalized_exprs b) (_normalized_exprs b').

(** What a parsed child builder looks like: it answers without a status,
    and with true only when each of its flags is set. *)
Definition parsed_child (root_expr : Expr) (normalized : bool) (child : ChunkPredicateBuilder)
    : Prop :=
  _exprs child = build_raw_expr_containers (children root_expr)
  ∧ _allow_partial_normalized child = false
  ∧ length (_normalized_exprs child) = length (children root_expr)
  ∧ (normalized = true → Forall (λ flag, flag = true) (_normalized_exprs child)).

(** [step] says no to [e], whatever the child builders so far. *)
Definition refuses {E : Type}
    (step : E → list ChunkPredicateBuilder →
            option (StatusOr bool * list ChunkPredicateBuilder))
    (e : E) : Prop :=
  ∀ cs, ∃ cs', step e cs = Some (Value false, cs').

Definition never_fails {E : Type}
    (step : E → list ChunkPredicateBuilder →
            option (StatusOr bool * list ChunkPredicateBuilder)) : Prop :=
  ∀ e cs st cs', step e cs ≠ Some (Error st, cs').

(** The positions of [conjunct_ctxs] the residual list is made of. *)
Definition residual_indices (root_builder : ChunkPredicateBuilder) (num_preds : nat)
    : list nat :=
  filter (λ i, normalized_at (_normalized_exprs root_builder) i = false) (seq 0 num_preds).

End Normalizer.

(* ===================================================================== *)
(** ** Constant conjuncts and the predicate tree *)
(* ===================================================================== *)

(** What eval_const_conjuncts asks of the expression library. *)
Class ConstantFolding := {
  (** Expr::evaluate_const: the folded column, nullptr ([None]), or an error. *)
  evaluate_const : ExprContext → StatusOr (option Column);
  (** ColumnHelper::get_const_value<TYPE_BOOLEAN> *)
  get_const_value_boolean : Column → bool
}.

(** eval_const_conjuncts: the returned Status and what [*status] holds.
    [*status] is set to OK on entry; an error of evaluate_const leaves the
    function through ASSIGN_OR_RETURN. *)
Fixpoint eval_const_conjuncts `{ConstantFolding} (conjunct_ctxs : list ExprContext)
    : Status * Status :=
  match conjunct_ctxs with
  | [] => (OK, OK)
  | ctx :: conjunct_ctxs' =>
      (* if conjunct is constant, compute direct and set eos = true *)
      if is_constant (ctx_root ctx) then
        match evaluate_const ctx with
        | Error st => (st, OK)
        | Value None => (OK, EndOfFile "conjuncts evaluated to null")
        | Value (Some value) =>
            if only_null value || is_null0 value
            then (OK, EndOfFile "conjuncts evaluated to null")
            else if column_is_constant value && negb (get_const_value_boolean value)
                 then (OK, EndOfFile "conjuncts evaluated to false")
                 else eval_const_conjuncts conjunct_ctxs'
        end
      else eval_const_conjuncts conjunct_ctxs'
  end.

(** A conjunct the loop of eval_const_conjuncts walks past. *)
Definition passes_const_check `{ConstantFolding} (ctx : ExprContext) : bool :=
  if is_constant (ctx_root ctx) then
    match evaluate_const ctx with
    | Value (Some value) =>
        negb (only_null value || is_null0 value)
        && negb (column_is_constant value && negb (get_const_value_boolean value))
    | _ => false
    end
  else true.

(** What the builder asks of the PredicateParser. *)
Class Parser := {
  ColumnPredicate : Type;
  (** parse_thrift_cond: [None] is nullptr. *)
  parse_thrift_cond : TCondition → option ColumnPredicate;
  parse_expr_ctx : SlotDescriptor → ExprContext → StatusOr (option ColumnPredicate);
  (** ColumnPredicate::set_index_filter_only *)
  mark_index_filter_only : bool → ColumnPredicate → ColumnPredicate
}.

(** The predicate tree get_chunk_predicate builds. *)
#[local] Unset Elimination Schemes.
Inductive ChunkPredicate `{Parser} : Type :=
| ColumnChunkPredicate (col_pred : ColumnPredicate)
| CompoundChunkPredicate (kind : BuilderType) (child_predicates : list ChunkPredicate).
#[local] Set Elimination Schemes.

Section PredicateTree.

Context {collaborators : Collaborators} {parser : Parser}.

Definition invalid_filter : Status := RuntimeError "invalid filter".

(** The first two loops of _get_column_predicates run over conditions;
    [mark] is what is done to a parsed predicate before it is kept. *)
Fixpoint parse_conditions (mark : TCondition → ColumnPredicate → ColumnPredicate)
    (conditions : list TCondition) (preds : list ColumnPredicate)
    : StatusOr (list ColumnPredicate) :=
  match conditions with
  | [] => Value preds
  | f :: conditions' =>
      match parse_thrift_cond f with
      | None => Error invalid_filter
      | Some p => parse_conditions mark conditions' (preds ++ [mark f p])
      end
  end.

(** The inner loop of the third: the contexts kept for one slot. *)
Fixpoint parse_expr_ctxs (slot_desc : SlotDescriptor) (expr_ctxs : list ExprContext)
    (preds : list ColumnPredicate) : StatusOr (list ColumnPredicate) :=
  match expr_ctxs with
  | [] => Value preds
  | ctx :: expr_ctxs' =>
      match parse_expr_ctx slot_desc ctx with
      | Error st => Error st
      | Value None => Error invalid_filter
      | Value (Some p) => parse_expr_ctxs slot_desc expr_ctxs' (preds ++ [p])
      end
  end.

(** The third loop; [None] is [slots[slot_index]] past the end. *)
Fixpoint parse_slot_exprs (slots : list SlotDescriptor)
    (entries : list (nat * list ExprContext)) (preds : list ColumnPredicate)
    : option (StatusOr (list ColumnPredicate)) :=
  match entries with
  | [] => Some (Value preds)
  | (slot_index, expr_ctxs) :: entries' =>
      slot_desc ← slots !! slot_index;
      match parse_expr_ctxs slot_desc expr_ctxs preds with
      | Error st => Some (Error st)
      | Value preds => parse_slot_exprs slots entries' preds
      end
  end.

Definition _get_column_predicates (opts : OlapScanConjunctsManagerOptions)
    (b : ChunkPredicateBuilder) : option (StatusOr (list ColumnPredicate)) :=
  match parse_conditions (λ f p, mark_index_filter_only (is_index_filter_only f) p)
          (olap_filters b) [] with
  | Error st => Some (Error st)
  | Value preds =>
      match parse_conditions (λ _ p, p) (is_null_vector b) preds with
      | Error st => Some (Error st)
      | Value preds => parse_slot_exprs (decoded_slots opts) (slot_index_to_expr_ctxs b) preds
      end
  end.

(** The loop of get_chunk_predicate over the child builders, given how one
    child builder is turned into its predicate. *)
Definition child_chunk_predicates
    (get : ChunkPredicateBuilder → option (StatusOr ChunkPredicate))
    : list ChunkPredicateBuilder → list ChunkPredicate →
      option (StatusOr (list ChunkPredicate)) :=
  fix go child_builders child_predicates :=
    match child_builders with
    | [] => Some (Value child_predicates)
    | child_builder :: child_builders' =>
        match get child_builder with
        | None => None
        | Some (Error st) => Some (Error st)
        | Some (Value child_pred) => go child_builders' (child_predicates ++ [child_pred])
        end
    end.

Fixpoint get_chunk_predicate (opts : OlapScanConjunctsManagerOptions)
    (b : ChunkPredicateBuilder) {struct b} : option (StatusOr ChunkPredicate) :=
  match _get_column_predicates opts b with
  | None => None
  | Some (Error st) => Some (Error st)
  | Some (Value col_preds) =>
      match child_chunk_predicates (get_chunk_predicate opts) (_child_builders b)
              (ColumnChunkPredicate <$> col_preds) with
      | None => None
      | Some (Error st) => Some (Error st)
      | Some (Value child_predicates) =>
          Some (Value (CompoundChunkPredicate (_type b) child_predicates))
      end
  end.

(** OlapScanConjunctsManager::parse_conjuncts: the status of the root
    builder's parse, with the manager after it. *)
Definition manager_parse_conjuncts (m : OlapScanConjunctsManager)
    : option (Status * OlapScanConjunctsManager) :=
  '(res, root_builder) ← parse_conjuncts (_opts m) (_root_builder m);
  Some (match res with Value _ => OK | Error st => st end, mkManager (_opts m) root_builder).

Definition manager_get_not_push_down_conjuncts (m : OlapScanConjunctsManager)
    (predicates : list ExprContext) : option (list ExprContext) :=
  get_not_push_down_conjuncts (_root_builder m) (conjunct_ctxs_ptr (_opts m)) predicates.

Definition unarrived_runtime_filters (m : OlapScanConjunctsManager)
    : list (RuntimeFilterProbeDescriptor * SlotDescriptor) :=
  rt_ranger_params (_root_builder m).

(** The number of column predicates a builder asks the parser for. *)
Definition pushed_conditions (b : ChunkPredicateBuilder) : nat :=
  (length (olap_filters b) + length (is_null_vector b)
   + sum_list (length ∘ snd <$> slot_index_to_expr_ctxs b))%nat.

(** A conjunct build_column_expr_predicates can take: it reads exactly one
    slot, the slot is one of the tuple, and the type of the first slot with
    that id is supported. *)
Definition column_expr_candidate (opts : OlapScanConjunctsManagerOptions)
    (c : ExprContainer) : bool :=
  match root c with
  | Some root_expr =>
      (length (get_slot_ids root_expr) =? 1)%nat
      && match get_slot_ids root_expr !! 0%nat ≫= slot_id_to_index (decoded_slots opts) with
         | Some index =>
             match decoded_slots opts !! index with
             | Some slot_desc => support_column_expr_predicate (ltype (slot_type slot_desc))
             | None => false
             end
         | None => false
         end
  | None => false
  end.

(** The IN predicate in [c], when [c] is an IN predicate on the slot: the
    test the IN passes make before they look at the value set. *)
Definition is_in_predicate_of (slot : SlotDescriptor) (c : ExprContainer)
    : option InPredicate :=
  match root c with
  | Some root_expr =>
      if bool_decide (op root_expr = TExprOpcode.FILTER_IN) then
        match get_child root_expr 0 with
        | Some l =>
            if is_slotref l && negb (type_mismatch slot l) && slot_matches slot l
            then Some (in_predicate root_expr)
            else None
        | None => None
        end
      else None
  | None => None
  end.

End PredicateTree.

(* ===================================================================== *)
(** ** What an extracted comparison means *)
(* ===================================================================== *)

(** The comparison with its operands exchanged: [5 < c] for [c > 5]. *)
Definition mirror_opcode (o : TExprOpcode.type) : TExprOpcode.type :=
  match o with
  | TExprOpcode.LT => TExprOpcode.GT
  | TExprOpcode.LE => TExprOpcode.GE
  | TExprOpcode.GT => TExprOpcode.LT
  | TExprOpcode.GE => TExprOpcode.LE
  | o => o
  end.

Definition mirror (expr : Expr) : Expr :=
  match children expr with
  | [l; r] =>
      mkExpr (mirror_opcode (op expr)) (node_type expr) (type expr) (is_constant expr)
             (is_slotref expr) (get_slot_ids expr) [r; l] (evaluate expr)
             (in_predicate expr) (is_null_scalar_function expr) (is_dict_mapping expr)
  | _ => expr
  end.

(** [column <op> value] on dates, with the operators of date_value.h. *)
Definition date_satisfies (op0 : SQLFilterOp) (column value : DateValue) : Prop :=
  match op0 with
  | FILTER_LARGER => _julian column > _julian value
  | FILTER_LARGER_OR_EQUAL => _julian column >= _julian value
  | FILTER_LESS => _julian column < _julian value
  | FILTER_LESS_OR_EQUAL => _julian column <= _julian value
  | FILTER_IN => _julian column = _julian value
  | FILTER_NOT_IN => _julian column ≠ _julian value
  end.

(** Modelled from the spec: the order of TimestampValue is declared outside
    the sources at hand; timestamps compare by day, then by the time within
    the day. *)
Definition timestamp_lt (a b : TimestampValue) : Prop :=
  ts_julian a < ts_julian b ∨ (ts_julian a = ts_julian b ∧ ts_time a < ts_time b).

(** [column <op> value] on timestamps. *)
Definition timestamp_satisfies (op0 : SQLFilterOp) (column value : TimestampValue) : Prop :=
  match op0 with
  | FILTER_LARGER => timestamp_lt value column
  | FILTER_LARGER_OR_EQUAL => ¬ timestamp_lt column value
  | FILTER_LESS => timestamp_lt column value
  | FILTER_LESS_OR_EQUAL => ¬ timestamp_lt value column
  | FILTER_IN => column = value
  | FILTER_NOT_IN => column ≠ value
  end.

(** The kind of datum a value type holds. *)
Definition datum_of_type (ValueType : CppType) (d : Datum) : Prop :=
  match ValueType, d with
  | CppDateValue, DDate _ => True
  | CppSlice, DSlice _ => True
  | CppScalar _, DScalar _ => True
  | _, _ => False
  end.

(* ===================================================================== *)
(** ** Sample inputs *)
(* ===================================================================== *)

Module Sample.

(** The collaborators over integer intervals; a runtime filter is its
    NULL marker with its minimum and maximum. *)
#[export] Instance intervals : Collaborators := {|
  ColumnValueRange := Intervals.Interval;
  add_fixed_values := Intervals.add_fixed_values;
  add_range := Intervals.add_range;
  is_init_state := Intervals.is_init_state;
  set_index_filter_only := Intervals.set_index_filter_only;
  to_olap_filter := Intervals.to_olap_filter;
  is_empty_value_range := Intervals.is_empty_value_range;
  full_range := Intervals.full_range;
  set_precision := λ _ r, r;
  set_scale := λ _ r, r;
  JoinRuntimeFilter := bool * (Z * Z);
  has_null := fst;
  GlobalDict := unit;
  build_minmax_range := λ _ r rf,
    Intervals.mkInterval (Intervals.column r) (Z.max (Intervals.low r) rf.2.1)
                         (Z.min (Intervals.high r) rf.2.2) (Intervals.index_filter_only r);
  OlapScanKeys := list (Z * Z);
  OlapScanRange := Z * Z;
  empty_scan_keys := [];
  default_scan_range := (- 2 ^ 63, 2 ^ 63 - 1);
  set_is_convertible := λ _ keys, keys;
  has_range_value := λ _, false;
  extend_scan_key := λ r _ keys, (OK, (keys ++ [(Intervals.low r, Intervals.high r)], r));
  get_key_range := λ keys _, (OK, keys);
  RunTimeTypeTraits := λ lt,
    match lt with
    | TYPE_DATE => CppDateValue
    | TYPE_VARCHAR | TYPE_CHAR => CppSlice
    | TYPE_DECIMAL32 | TYPE_DECIMAL64 | TYPE_DECIMAL128 => CppScalar true
    | _ => CppScalar false
    end;
  type_dispatch_predicate := λ _, true;
  lt_is_float := λ lt, match lt with TYPE_FLOAT | TYPE_DOUBLE => true | _ => false end;
  lt_is_binary := λ lt, match lt with TYPE_VARBINARY => true | _ => false end;
  lt_is_decimal := λ lt,
    match lt with
    | TYPE_DECIMALV2 | TYPE_DECIMAL32 | TYPE_DECIMAL64 | TYPE_DECIMAL128 => true
    | _ => false
    end;
  support_column_expr_predicate := λ _, true;
  prepare_and_open := λ _, OK;
  max_pushdown_conditions_per_column := 1024;
  enable_short_key_for_one_column_filter := false
|}.

Definition no_in_predicate : InPredicate := mkInPredicate false false false [].

Definition slot_ref (slot_id : SlotId) (t : TypeDescriptor) : Expr :=
  mkExpr TExprOpcode.INVALID_OPCODE TExprNodeType.SLOT_REF t false true [slot_id] []
         None no_in_predicate None false.

Definition cast (t : TypeDescriptor) (e : Expr) : Expr :=
  mkExpr TExprOpcode.CAST TExprNodeType.CAST_EXPR t (is_constant e) false (get_slot_ids e) [e]
         None no_in_predicate None false.

(** A literal evaluates to a one-row constant column. *)
Definition literal (t : TypeDescriptor) (data : DataColumn) : Expr :=
  mkExpr TExprOpcode.INVALID_OPCODE TExprNodeType.LITERAL t true false [] []
         (Some (mkColumn false false false true data)) no_in_predicate None false.

Definition boolean : TypeDescriptor := mkType TYPE_BOOLEAN 0 0.

Definition binary_pred (o : TExprOpcode.type) (l r : Expr) : Expr :=
  mkExpr o TExprNodeType.BINARY_PRED boolean false false (get_slot_ids l ++ get_slot_ids r)
         [l; r] None no_in_predicate None false.

Definition compound (o : TExprOpcode.type) (branches : list Expr) : Expr :=
  mkExpr o TExprNodeType.COMPOUND_PRED boolean false false
         (concat (get_slot_ids <$> branches)) branches None no_in_predicate None false.

Definition in_pred (l : Expr) (pred : InPredicate) : Expr :=
  mkExpr TExprOpcode.FILTER_IN TExprNodeType.IN_PRED boolean false false (get_slot_ids l)
         [l] None pred None false.

Definition date : TypeDescriptor := mkType TYPE_DATE 0 0.
Definition datetime : TypeDescriptor := mkType TYPE_DATETIME 0 0.
Definition int_type : TypeDescriptor := mkType TYPE_INT 0 0.

Definition DATE_COL : SlotDescriptor := mkSlot 1 date "DATE_COL".

(** 2020-01-01 is Julian day 2458850; 01:00:00 is 3600 seconds into it. *)
Definition d_2020_01_01 : DateValue := mkDate 2458850.
Definition ts_2020_01_01_01_00_00 : TimestampValue := mkTimestamp 2458850 3600000000.

(** [DATE_COL <o> '2020-01-01 01:00:00']: both sides arrive as timestamps,
    the column under a cast. *)
Definition date_col_vs_timestamp (o : TExprOpcode.type) : Expr :=
  binary_pred o (cast datetime (slot_ref 1 date))
              (literal datetime (TimestampColumn ts_2020_01_01_01_00_00)).

Definition fresh_out : OutParams := mkOut None None OK.

Definition options (conjuncts : list ExprContext) (slots : list SlotDescriptor)
    (filters : list RuntimeFilterProbeDescriptor) (column_expr : bool)
    : OlapScanConjunctsManagerOptions :=
  mkOptions conjuncts slots [] filters [] false 1024 column_expr.

(** A builder whose scan keys are still empty. *)
Definition idle_builder : ChunkPredicateBuilder := new_builder AND [] true.

Definition A_COL : SlotDescriptor := mkSlot 10 int_type "a".
Definition B_COL : SlotDescriptor := mkSlot 11 int_type "b".

(** Ranges of two columns: [a] within [1, 5], [b] empty. *)
Definition a_1_5 : Intervals.Interval := Intervals.mkInterval "a" 1 5 false.
Definition b_empty : Intervals.Interval := Intervals.mkInterval "b" 7 3 false.

Definition builder_with_ranges (ranges : list (string * Intervals.Interval))
    : ChunkPredicateBuilder :=
  set_column_value_ranges ranges idle_builder.



(** [a = 1 OR b < 2 OR a < b]: the third branch reads two columns. *)
Definition a_eq_1 : Expr :=
  binary_pred TExprOpcode.EQ (slot_ref 10 int_type) (literal int_type (FixedColumn 1)).
Definition b_lt_2 : Expr :=
  binary_pred TExprOpcode.LT (slot_ref 11 int_type) (literal int_type (FixedColumn 2)).
Definition a_lt_b : Expr :=
  binary_pred TExprOpcode.LT (slot_ref 10 int_type) (slot_ref 11 int_type).
Definition three_branch_or : Expr :=
  compound TExprOpcode.COMPOUND_OR [a_eq_1; b_lt_2; a_lt_b].

Definition or_options : OlapScanConjunctsManagerOptions :=
  options [mkExprContext three_branch_or] [A_COL; B_COL] [] true.

Definition or_manager : OlapScanConjunctsManager := new_manager or_options.

(** [a IN (...)] sent by a join, with NULL in its set. *)
Definition a_in_runtime_filter : Expr :=
  in_pred (slot_ref 10 int_type) (mkInPredicate true false true [DScalar 1; DScalar 2]).

Definition rf_options : OlapScanConjunctsManagerOptions :=
  options [mkExprContext a_in_runtime_filter] [A_COL; B_COL] [] false.

Definition rf_manager : OlapScanConjunctsManager := new_manager rf_options.

(** A published bloom filter on [a] with bounds 2 and 4 and NULL in its
    domain, and one that is not published. *)
Definition null_bearing : RuntimeFilterProbeDescriptor :=
  mkProbe (Some 10) (Some (true, (2, 4))).
Definition unpublished : RuntimeFilterProbeDescriptor := mkProbe (Some 10) None.

Definition bloom_options : OlapScanConjunctsManagerOptions :=
  options [] [A_COL] [null_bearing; unpublished] false.

(** A limiter of capacity 4 holding 3 chunks. *)
Definition limiter_3_of_4 : DynamicChunkBufferLimiter.Limiter :=
  DynamicChunkBufferLimiter.mkLimiter 3 4 8 1024 0 0.

Definition fresh_limiter : DynamicChunkBufferLimiter.Limiter :=
  DynamicChunkBufferLimiter.mkLimiter 0 4 8 1024 0 0.

(** [a < 5]; its mirror is [5 > a]. *)
Definition a_lt_5 : Expr :=
  binary_pred TExprOpcode.LT (slot_ref 10 int_type) (literal int_type (FixedColumn 5)).

End Sample.

(* ===================================================================== *)
(** * Properties of get_predicate_value *)
(* ===================================================================== *)

(** Truncating a timestamp to a date loses something exactly when the
    timestamp has a time of day. *)
Lemma truncation_lossy_iff (ts : TimestampValue) :
  date_to_timestamp (timestamp_to_date ts) ≠ ts ↔ ts_time ts ≠ 0.
Proof.
  destruct ts as [j t]; unfold date_to_timestamp, timestamp_to_date; simpl.
  split.
  - intros Hne Ht. apply Hne. now rewrite Ht.
  - intros Ht Heq. apply Ht. now inversion Heq.
Qed.

(** Whatever get_predicate_value returns on a rejection before the operator
    is extracted, the out-parameters are as they were. *)
Lemma get_predicate_value_rejected (ValueType : CppType) (slot : SlotDescriptor)
    (expr : Expr) (out : OutParams) :
  find_operands ValueType slot expr = OperandsRejected →
  get_predicate_value ValueType slot expr out = Some (false, out).
Proof. intros H. unfold get_predicate_value. now rewrite H. Qed.

(** C2: on a DATE slot, a comparison whose constant is a timestamp with a
    nonzero time of day is extracted with the date of the timestamp as its
    value and with the operator rewritten: [>=] to [>], [<] to [<=], [>] and
    [<=] kept, while the equality (IN) case returns false with the
    end-of-file status and the NOT IN case returns false with the status
    untouched. *)
Theorem date_lossy_rewrite (slot : SlotDescriptor) (expr : Expr) (out : OutParams)
    (reverse_op : bool) (r : Expr) (ts : TimestampValue) :
  find_operands CppDateValue slot expr = OperandsFound reverse_op r (TimestampColumn ts) →
  ts_time ts ≠ 0 →
  get_predicate_value CppDateValue slot expr out =
    Some
      match extracted_op expr reverse_op with
      | FILTER_LARGER_OR_EQUAL =>
          (true, mkOut (Some (DDate (timestamp_to_date ts))) (Some FILTER_LARGER) (out_status out))
      | FILTER_LESS =>
          (true, mkOut (Some (DDate (timestamp_to_date ts))) (Some FILTER_LESS_OR_EQUAL)
                       (out_status out))
      | FILTER_LARGER =>
          (true, mkOut (Some (DDate (timestamp_to_date ts))) (Some FILTER_LARGER) (out_status out))
      | FILTER_LESS_OR_EQUAL =>
          (true, mkOut (Some (DDate (timestamp_to_date ts))) (Some FILTER_LESS_OR_EQUAL)
                       (out_status out))
      | FILTER_IN =>
          (false, mkOut (Some (DDate (timestamp_to_date ts))) (Some FILTER_IN)
                        (EndOfFile "predicate for date always false"))
      | FILTER_NOT_IN =>
          (false, mkOut (Some (DDate (timestamp_to_date ts))) (Some FILTER_NOT_IN)
                        (out_status out))
      end.
Proof.
  intros Hfound Htime.
  unfold get_predicate_value. rewrite Hfound. unfold extract_value.
  rewrite bool_decide_eq_true_2 by (now apply truncation_lossy_iff).
  now destruct (extracted_op expr reverse_op).
Qed.

Lemma date_lossy_rewrite_witness :
  get_predicate_value CppDateValue Sample.DATE_COL
    (Sample.date_col_vs_timestamp TExprOpcode.GE) Sample.fresh_out
  = Some (true, mkOut (Some (DDate Sample.d_2020_01_01)) (Some FILTER_LARGER) OK).
Proof.
  refine (date_lossy_rewrite Sample.DATE_COL (Sample.date_col_vs_timestamp TExprOpcode.GE)
            Sample.fresh_out false
            (Sample.literal Sample.datetime (TimestampColumn Sample.ts_2020_01_01_01_00_00))
            Sample.ts_2020_01_01_01_00_00 _ _).
  - reflexivity.
  - simpl. lia.
Defined.

(** C3, as the spec words it, fails: [DATE_COL = '2020-01-01 01:00:00'] is
    not extracted as [DATE_COL > '2020-01-01']. *)
Lemma date_equality_is_not_rewritten_to_greater :
  ¬ (get_predicate_value CppDateValue Sample.DATE_COL
       (Sample.date_col_vs_timestamp TExprOpcode.EQ) Sample.fresh_out
     = Some (true, mkOut (Some (DDate Sample.d_2020_01_01)) (Some FILTER_LARGER) OK)
     ∧ get_predicate_value CppDateValue Sample.DATE_COL
         (Sample.date_col_vs_timestamp TExprOpcode.LE) Sample.fresh_out
       = Some (true, mkOut (Some (DDate Sample.d_2020_01_01)) (Some FILTER_LESS_OR_EQUAL) OK)).
Proof. intros [Heq _]. vm_compute in Heq. discriminate Heq. Qed.

(** C3, amended: on the DATE column, [DATE_COL = '2020-01-01 01:00:00'] is
    not extracted at all (false, with the end-of-file status: it is always
    false); it is [DATE_COL >= '2020-01-01 01:00:00'] that is rewritten to
    [DATE_COL > '2020-01-01'], and [DATE_COL <= '2020-01-01 01:00:00'] is
    rewritten to [DATE_COL <= '2020-01-01']. *)
Theorem date_example_rewrites :
  get_predicate_value CppDateValue Sample.DATE_COL
    (Sample.date_col_vs_timestamp TExprOpcode.EQ) Sample.fresh_out
  = Some (false, mkOut (Some (DDate Sample.d_2020_01_01)) (Some FILTER_IN)
                       (EndOfFile "predicate for date always false"))
  ∧ get_predicate_value CppDateValue Sample.DATE_COL
      (Sample.date_col_vs_timestamp TExprOpcode.GE) Sample.fresh_out
    = Some (true, mkOut (Some (DDate Sample.d_2020_01_01)) (Some FILTER_LARGER) OK)
  ∧ get_predicate_value CppDateValue Sample.DATE_COL
      (Sample.date_col_vs_timestamp TExprOpcode.LE) Sample.fresh_out
    = Some (true, mkOut (Some (DDate Sample.d_2020_01_01)) (Some FILTER_LESS_OR_EQUAL) OK).
Proof. repeat split; reflexivity. Qed.





(* ===================================================================== *)
(** * Properties of the builder *)
(* ===================================================================== *)

Section BuilderProperties.

Context {collaborators : Collaborators}.

Implicit Types (b : ChunkPredicateBuilder) (opts : OlapScanConjunctsManagerOptions).
Implicit Types (fl : list bool) (i j : nat).

Lemma normalized_at_true fl i : normalized_at fl i = true ↔ fl !! i = Some true.
Proof. unfold normalized_at. apply bool_decide_eq_true. Qed.

Lemma normalized_at_ge fl i : (length fl ≤ i)%nat → normalized_at fl i = false.
Proof.
  intros Hge. unfold normalized_at. apply bool_decide_eq_false.
  rewrite (lookup_ge_None_2 fl i Hge). discriminate.
Qed.

(** is_pred_normalized never reads past the flag vector, and agrees with
    the flag where there is one. *)
Lemma is_pred_normalized_total b index :
  is_pred_normalized b index = Some (normalized_at (_normalized_exprs b) index).
Proof.
  unfold is_pred_normalized, vector_at.
  destruct (index <? length (_normalized_exprs b))%nat eqn:Hlt.
  - apply Nat.ltb_lt in Hlt.
    destruct (lookup_lt_is_Some_2 _ _ Hlt) as [x Hx]. rewrite Hx.
    unfold normalized_at. rewrite Hx. now destruct x.
  - apply Nat.ltb_ge in Hlt. now rewrite normalized_at_ge.
Qed.

Lemma omap_ext_Forall {A B : Type} (f g : A → option B) (l : list A) :
  Forall (λ x, f x = g x) l → omap f l = omap g l.
Proof.
  intros Hl. induction Hl as [|x l Hx _ IHl]; [reflexivity|].
  csimpl. now rewrite Hx, IHl.
Qed.

Lemma get_not_push_down_conjuncts_from_spec b (ctxs : list ExprContext) :
  ∀ i predicates,
    get_not_push_down_conjuncts_from b i ctxs predicates
    = Some (predicates
            ++ omap (λ j, ctxs !! (j - i)%nat)
                    (filter (λ j, normalized_at (_normalized_exprs b) j = false)
                            (seq i (length ctxs)))).
Proof.
  induction ctxs as [|ctx ctxs IH]; intros i predicates.
  - simpl. now rewrite app_nil_r.
  - cbn [get_not_push_down_conjuncts_from length seq].
    rewrite is_pred_normalized_total. cbn [mbind option_bind]. rewrite IH.
    assert (Hshift : ∀ l : list nat, Forall (λ j, (S i ≤ j)%nat) l →
              omap (λ j, (ctx :: ctxs) !! (j - i)%nat) l
              = omap (λ j, ctxs !! (j - S i)%nat) l).
    { intros l Hl. apply omap_ext_Forall.
      eapply Forall_impl; [exact Hl|]. intros j Hj. simpl in Hj.
      now replace (j - i)%nat with (S (j - S i)) by lia. }
    assert (Hall : Forall (λ j, (S i ≤ j)%nat)
              (filter (λ j, normalized_at (_normalized_exprs b) j = false)
                      (seq (S i) (length ctxs)))).
    { apply Forall_forall. intros j Hj. apply list_elem_of_filter in Hj as [_ Hj].
      apply elem_of_seq in Hj. lia. }
    destruct (decide (normalized_at (_normalized_exprs b) i = false)) as [Hn|Hn].
    + rewrite filter_cons_True by exact Hn. rewrite Hn.
      cbn [negb omap list_omap]. rewrite Nat.sub_diag. cbn [lookup list_lookup].
      fold (@omap list _ _ _ (λ j, (ctx :: ctxs) !! (j - i)%nat)).
      rewrite (Hshift _ Hall). now rewrite <- app_assoc.
    + rewrite filter_cons_False by exact Hn.
      apply not_false_is_true in Hn. rewrite Hn. cbn [negb].
      now rewrite (Hshift _ Hall).
Qed.

(** The residual list is the conjuncts at the positions whose flag is not
    set, in order, after what the vector already held. *)
Lemma get_not_push_down_conjuncts_spec b (ctxs predicates : list ExprContext) :
  get_not_push_down_conjuncts b ctxs predicates
  = Some (predicates ++ omap (λ j, ctxs !! j) (residual_indices b (length ctxs))).
Proof.
  unfold get_not_push_down_conjuncts, residual_indices.
  rewrite get_not_push_down_conjuncts_from_spec.
  do 2 f_equal. apply omap_ext_Forall, Forall_forall.
  intros j _. now rewrite Nat.sub_0_r.
Qed.

Lemma elem_of_residual_indices b n i :
  i ∈ residual_indices b n ↔ (i < n)%nat ∧ normalized_at (_normalized_exprs b) i = false.
Proof.
  unfold residual_indices. rewrite list_elem_of_filter, elem_of_seq. split.
  - intros [H1 H2]. split; [lia | assumption].
  - intros [H1 H2]. split; [assumption | lia].
Qed.

(** C10: at an index at or past the end of the flag vector, as for a
    conjunct appended after the builder was made, is_pred_normalized
    returns false without reading the vector, and the residual list, which
    is always produced, takes that conjunct. *)
Theorem late_conjunct_is_residual b (conjunct_ctxs predicates : list ExprContext)
    (index : nat) (ctx : ExprContext) :
  (length (_normalized_exprs b) ≤ index)%nat →
  conjunct_ctxs !! index = Some ctx →
  is_pred_normalized b index = Some false
  ∧ index ∈ residual_indices b (length conjunct_ctxs)
  ∧ ∃ residual,
      get_not_push_down_conjuncts b conjunct_ctxs predicates = Some residual
      ∧ ctx ∈ residual.
Proof.
  intros Hge Hctx.
  assert (Hidx : index ∈ residual_indices b (length conjunct_ctxs)).
  { apply elem_of_residual_indices. split.
    - eapply lookup_lt_Some; eassumption.
    - now apply normalized_at_ge. }
  split; [|split; [exact Hidx|]].
  - rewrite is_pred_normalized_total. now rewrite normalized_at_ge.
  - eexists. split; [apply get_not_push_down_conjuncts_spec|].
    apply elem_of_app. right. apply list_elem_of_omap. exists index. split; assumption.
Qed.

(* ------------------------------------------------------------------- *)
(** *** Key ranges *)
(* ------------------------------------------------------------------- *)

(** A successful get_key_ranges never hands back an empty vector. *)
Lemma get_key_ranges_nonempty b (key_ranges result : list OlapScanRange) :
  get_key_ranges b key_ranges = (OK, result) → result ≠ [].
Proof.
  unfold get_key_ranges.
  destruct (get_key_range (scan_keys b) key_ranges) as [st produced].
  destruct st; simpl; try discriminate.
  case_bool_decide as Hnil; intros [= <-].
  - subst produced. discriminate.
  - exact Hnil.
Qed.

(** C6: when the scan keys produce no key range, get_key_ranges returns
    exactly one range, the default one, and in no case does it succeed
    with an empty list. *)
Theorem get_key_ranges_default b (key_ranges : list OlapScanRange) :
  get_key_range (scan_keys b) key_ranges = (OK, []) →
  get_key_ranges b key_ranges = (OK, [default_scan_range])
  ∧ ∀ b' key_ranges' result,
      get_key_ranges b' key_ranges' = (OK, result) → result ≠ [].
Proof.
  intros Hzero. split.
  - unfold get_key_ranges. rewrite Hzero. reflexivity.
  - intros b' key_ranges' result. apply get_key_ranges_nonempty.
Qed.

(* ------------------------------------------------------------------- *)
(** *** build_olap_filters *)
(* ------------------------------------------------------------------- *)

Lemma build_olap_filters_from_spec (ranges : list (string * ColumnValueRange)) :
  ∀ filters_so_far,
    build_olap_filters_from ranges filters_so_far
    = (if bool_decide (Exists (λ kv, is_empty_value_range kv.2 = true) ranges)
       then EOF_always_false else OK,
       filters_so_far ++ filters_of (before_first_empty ranges)).
Proof.
  induction ranges as [|[name r] ranges IH]; intros acc;
    cbn [build_olap_filters_from before_first_empty].
  - rewrite bool_decide_eq_false_2 by (intros H; inversion H).
    unfold filters_of. simpl. now rewrite app_nil_r.
  - destruct (is_empty_value_range r) eqn:Hr.
    + rewrite bool_decide_eq_true_2 by (now left).
      unfold filters_of. simpl. now rewrite app_nil_r.
    + rewrite IH. f_equal.
      * erewrite (bool_decide_ext (Exists _ (_ :: _))); [reflexivity|].
        rewrite Exists_cons. simpl. rewrite Hr. clear. intuition discriminate.
      * unfold filters_of. simpl. now rewrite app_assoc.
Qed.

Lemma has_empty_range_Exists (ranges : list (string * ColumnValueRange)) :
  has_empty_range ranges ↔ Exists (λ kv, is_empty_value_range kv.2 = true) ranges.
Proof.
  unfold has_empty_range. rewrite Exists_exists. split.
  - intros (name & r & Hin & Hr). now exists (name, r).
  - intros ([name r] & Hin & Hr). now exists name, r.
Qed.

(** C5, amended: when some column's range is empty, build_olap_filters
    returns the end-of-file status, which no pass without an empty range
    returns; the filters of the empty column and of the columns after it
    are not added to [olap_filters], which holds the filters of the
    columns in front of it; and parse_conjuncts of a builder that allows
    partial normalisation returns that status at once, with the builder
    as build_olap_filters left it. *)
Theorem empty_range_short_circuits b :
  (has_empty_range (column_value_ranges b) →
     build_olap_filters b
     = (EOF_always_false,
        set_olap_filters (filters_of (before_first_empty (column_value_ranges b))) b))
  ∧ (¬ has_empty_range (column_value_ranges b) → (build_olap_filters b).1 = OK)
  ∧ ∀ opts b0,
      _allow_partial_normalized b0 = true →
      normalize_expressions opts b0 = Some b →
      has_empty_range (column_value_ranges b) →
      parse_conjuncts opts b0
      = Some (Error EOF_always_false,
              set_olap_filters (filters_of (before_first_empty (column_value_ranges b))) b).
Proof.
  assert (Hbuild : has_empty_range (column_value_ranges b) →
     build_olap_filters b
     = (EOF_always_false,
        set_olap_filters (filters_of (before_first_empty (column_value_ranges b))) b)).
  { intros Hempty. unfold build_olap_filters.
    rewrite build_olap_filters_from_spec.
    rewrite bool_decide_eq_true_2 by (now apply has_empty_range_Exists).
    reflexivity. }
  split; [exact Hbuild|split].
  - intros Hnone. unfold build_olap_filters.
    rewrite build_olap_filters_from_spec.
    rewrite bool_decide_eq_false_2; [reflexivity|].
    intros H. apply Hnone. now apply has_empty_range_Exists.
  - intros opts b0 Hpartial Hnorm Hempty.
    unfold parse_conjuncts. rewrite Hpartial, Hnorm. cbn [mbind option_bind].
    rewrite (Hbuild Hempty). reflexivity.
Qed.

(* ------------------------------------------------------------------- *)
(** *** Runtime filters *)
(* ------------------------------------------------------------------- *)

Lemma bind_runtime_filter_other_slot opts (SlotType : LogicalType) (slot : SlotDescriptor)
    (desc : RuntimeFilterProbeDescriptor)
    (s : ColumnValueRange * list (RuntimeFilterProbeDescriptor * SlotDescriptor)) :
  probes_slot slot desc = false →
  bind_runtime_filter opts SlotType slot s desc = s.
Proof.
  unfold probes_slot, bind_runtime_filter. destruct s as [r unarrived].
  intros Hp. apply bool_decide_eq_false in Hp.
  destruct (is_probe_slot_ref desc) as [slot_id|]; [|reflexivity].
  case_bool_decide as Hid; [reflexivity|].
  subst slot_id. now contradict Hp.
Qed.

Lemma bind_runtime_filter_has_null opts (SlotType : LogicalType) (slot : SlotDescriptor)
    (desc : RuntimeFilterProbeDescriptor) (rf : JoinRuntimeFilter)
    (s : ColumnValueRange * list (RuntimeFilterProbeDescriptor * SlotDescriptor)) :
  runtime_filter desc = Some rf → has_null rf = true →
  bind_runtime_filter opts SlotType slot s desc = s.
Proof.
  intros Hrf Hnull. unfold bind_runtime_filter. destruct s as [r unarrived].
  destruct (is_probe_slot_ref desc); [|reflexivity].
  case_bool_decide; [reflexivity|]. now rewrite Hrf, Hnull.
Qed.

Lemma bind_runtime_filter_unarrived opts (SlotType : LogicalType) (slot : SlotDescriptor)
    (desc : RuntimeFilterProbeDescriptor) (r : ColumnValueRange)
    (unarrived : list (RuntimeFilterProbeDescriptor * SlotDescriptor)) :
  is_probe_slot_ref desc = Some (id slot) → runtime_filter desc = None →
  bind_runtime_filter opts SlotType slot (r, unarrived) desc
  = (r, unarrived ++ [(desc, slot)]).
Proof.
  intros Hprobe Hrf. unfold bind_runtime_filter.
  rewrite Hprobe, Hrf. now rewrite bool_decide_eq_false_2 by (intros H; now apply H).
Qed.

Lemma bind_runtime_filters_unusable opts (SlotType : LogicalType) (slot : SlotDescriptor)
    (descs : list RuntimeFilterProbeDescriptor) :
  Forall (λ desc, probes_slot slot desc = true → unusable desc = true) descs →
  ∀ r unarrived,
    fold_left (bind_runtime_filter opts SlotType slot) descs (r, unarrived)
    = (r, unarrived ++ unarrived_for slot descs).
Proof.
  induction 1 as [|desc descs Hdesc _ IH]; intros r unarrived.
  - unfold unarrived_for. simpl. now rewrite app_nil_r.
  - cbn [fold_left]. unfold unarrived_for in *.
    destruct (probes_slot slot desc) eqn:Hp.
    + specialize (Hdesc eq_refl). unfold unusable in Hdesc.
      destruct (runtime_filter desc) as [rf|] eqn:Hrf.
      * rewrite (bind_runtime_filter_has_null _ _ _ _ rf) by assumption.
        rewrite IH. rewrite filter_cons_False; [reflexivity|].
        intros [_ Hnone]. congruence.
      * apply bool_decide_eq_true in Hp.
        rewrite bind_runtime_filter_unarrived by assumption.
        rewrite IH. rewrite filter_cons_True.
        -- rewrite fmap_cons. now rewrite <- app_assoc.
        -- split; [now apply bool_decide_eq_true|assumption].
    + rewrite bind_runtime_filter_other_slot by assumption.
      rewrite IH. rewrite filter_cons_False; [reflexivity|].
      intros [Hp' _]. congruence.
Qed.

(** C8: a published runtime filter whose domain contains NULL leaves the
    range and the unarrived list exactly as they were, whatever its
    bounds; a filter of the slot that is not published yet leaves the
    range as it was and is recorded as unarrived; and when every filter of
    the slot is of one of these two kinds, the whole binding loop returns
    the range it was given. *)
Theorem null_bearing_filter_binds_nothing opts (SlotType : LogicalType)
    (slot : SlotDescriptor) (r : ColumnValueRange)
    (unarrived : list (RuntimeFilterProbeDescriptor * SlotDescriptor)) :
  (∀ desc rf,
     runtime_filter desc = Some rf → has_null rf = true →
     bind_runtime_filter opts SlotType slot (r, unarrived) desc = (r, unarrived))
  ∧ (∀ desc,
       is_probe_slot_ref desc = Some (id slot) → runtime_filter desc = None →
       bind_runtime_filter opts SlotType slot (r, unarrived) desc
       = (r, unarrived ++ [(desc, slot)]))
  ∧ (Forall (λ desc, probes_slot slot desc = true → unusable desc = true)
            (runtime_filters opts) →
     bind_runtime_filters opts SlotType slot r unarrived
     = (r, unarrived ++ unarrived_for slot (runtime_filters opts))).
Proof.
  split; [|split].
  - intros desc rf Hrf Hnull. now apply (bind_runtime_filter_has_null _ _ _ _ rf).
  - intros desc Hprobe Hrf. now apply bind_runtime_filter_unarrived.
  - intros Hall. unfold bind_runtime_filters. now apply bind_runtime_filters_unusable.
Qed.

(* ------------------------------------------------------------------- *)
(** *** Flags are only ever set *)
(* ------------------------------------------------------------------- *)

#[local] Instance flags_grow_preorder : PreOrder flags_grow.
Proof.
  split.
  - intros fl. split; [reflexivity | auto].
  - intros fl1 fl2 fl3 [Hl12 H12] [Hl23 H23]. split; [congruence | auto].
Qed.

Lemma flags_grow_insert fl i : flags_grow fl (<[i:=true]> fl).
Proof.
  split; [apply length_insert|].
  intros j Hj. destruct (decide (i = j)) as [->|Hne].
  - apply list_lookup_insert_eq. eapply lookup_lt_Some; eassumption.
  - now rewrite list_lookup_insert_ne.
Qed.

(** The AND/OR loop writes its verdict only where the flag was not set. *)
Lemma flags_grow_insert_unset fl i (v : bool) :
  normalized_at fl i = false → flags_grow fl (<[i:=v]> fl).
Proof.
  intros Hunset. split; [apply length_insert|].
  intros j Hj. destruct (decide (i = j)) as [->|Hne].
  - apply normalized_at_true in Hj. congruence.
  - now rewrite list_lookup_insert_ne.
Qed.

Lemma flags_grow_set fl fl' i : flags_grow fl fl' → fl !! i = Some true → fl' !! i = Some true.
Proof. intros [_ H]. apply H. Qed.

Lemma for_each_from_rel {E St : Type} (R : St → St → Prop) `{!PreOrder R}
    (body : nat → E → St → option St) :
  (∀ i e s s', body i e s = Some s' → R s s') →
  ∀ es i s s', for_each_from body i es s = Some s' → R s s'.
Proof.
  intros Hbody es. induction es as [|e es IH]; intros i s s'; simpl.
  - intros [= ->]. reflexivity.
  - destruct (body i e s) as [s1|] eqn:Hs1; [|discriminate].
    intros Hrest. transitivity s1; [eapply Hbody | eapply IH]; eassumption.
Qed.

(** The state a loop is in when it reaches position [k], and after it. *)
Lemma for_each_from_at {E St : Type} (R : St → St → Prop) `{!PreOrder R}
    (body : nat → E → St → option St) :
  (∀ i e s s', body i e s = Some s' → R s s') →
  ∀ es i s s' k e,
    for_each_from body i es s = Some s' → es !! k = Some e →
    ∃ s1 s2, R s s1 ∧ body (i + k)%nat e s1 = Some s2 ∧ R s2 s'.
Proof.
  intros Hbody es. induction es as [|e0 es IH]; intros i s s' k e; [discriminate|].
  simpl. destruct (body i e0 s) as [s1|] eqn:Hs1; [|discriminate].
  intros Hrest Hk. destruct k as [|k]; simpl in Hk.
  - injection Hk as ->. exists s, s1. rewrite Nat.add_0_r.
    split; [reflexivity|]. split; [assumption|].
    eapply for_each_from_rel; eassumption.
  - destruct (IH _ _ _ _ _ Hrest Hk) as (t1 & t2 & Ht1 & Hbody' & Ht2).
    exists t1, t2. replace (i + S k)%nat with (S i + k)%nat by lia.
    split; [|split; assumption].
    transitivity s1; [eapply Hbody|]; eassumption.
Qed.

#[local] Instance pass_grows_preorder : PreOrder pass_grows.
Proof.
  split.
  - intros s. unfold pass_grows. reflexivity.
  - intros s1 s2 s3. unfold pass_grows. intros H12 H23. now transitivity (flags s2).
Qed.

#[local] Instance fst_grows_preorder {A : Type} : PreOrder (@fst_grows A).
Proof.
  split.
  - intros s. unfold fst_grows. reflexivity.
  - intros s1 s2 s3. unfold fst_grows. intros H12 H23. now transitivity s2.1.
Qed.

Lemma add_fixed_values_and_mark_grows (op0 : SQLFilterOp) (values : list Datum) i (s : Pass) :
  pass_grows s (add_fixed_values_and_mark op0 values i s).
Proof.
  unfold pass_grows, add_fixed_values_and_mark.
  destruct (add_fixed_values op0 values (range s)) as [st r]. simpl.
  destruct (ok st); [apply flags_grow_insert | reflexivity].
Qed.

Lemma fold_predicate_value_grows (ValueType : CppType) (slot : SlotDescriptor)
    (root_expr : Expr) i fold (s s' : Pass) :
  fold_predicate_value ValueType slot root_expr i fold s = Some s' → pass_grows s s'.
Proof.
  unfold fold_predicate_value, pass_grows.
  destruct (get_predicate_value _ _ _ _) as [[[|] out]|]; [| |discriminate].
  - destruct (out_value out), (out_op out); try discriminate.
    destruct (fold _ _ _) as [st r]. intros [= <-]. simpl.
    destruct (ok st); [apply flags_grow_insert | reflexivity].
  - intros [= <-]. reflexivity.
Qed.

Lemma normalize_eq_conjunct_grows (ValueType : CppType) (slot : SlotDescriptor)
    (root_expr : Expr) i (s s' : Pass) :
  normalize_eq_conjunct ValueType slot root_expr i s = Some s' → pass_grows s s'.
Proof.
  unfold normalize_eq_conjunct. case_match.
  - apply fold_predicate_value_grows.
  - intros [= <-]. reflexivity.
Qed.

(** Closes the branches of a pass body: the state is returned as it was,
    one flag was set, or the equality part ran. *)
Ltac pass_branches :=
  repeat match goal with
    | |- Some _ = Some _ → _ => intros [= <-]
    | |- None = Some _ → _ => discriminate
    | |- pass_grows ?s ?s => reflexivity
    | |- fst_grows ?s ?s => reflexivity
    | |- context [mbind _ ?o] => destruct o; cbn [mbind option_bind]
    | |- context [if ?c then _ else _] => destruct c
    | |- context [match ?o with Some _ => _ | None => _ end] => destruct o
    end.

Lemma normalize_in_or_equal_body_grows (SlotType : LogicalType) (slot : SlotDescriptor)
    i (c : ExprContainer) (s s' : Pass) :
  normalize_in_or_equal_body SlotType slot i c s = Some s' → pass_grows s s'.
Proof.
  unfold normalize_in_or_equal_body. pass_branches;
    try (intros H; apply normalize_eq_conjunct_grows in H; assumption).
  intros H. apply normalize_eq_conjunct_grows in H.
  etransitivity; [apply add_fixed_values_and_mark_grows | exact H].
Qed.

Lemma normalize_in_or_equal_date_body_grows (slot : SlotDescriptor)
    i (c : ExprContainer) (s s' : Pass) :
  normalize_in_or_equal_date_body slot i c s = Some s' → pass_grows s s'.
Proof.
  unfold normalize_in_or_equal_date_body. pass_branches;
    try (intros H; apply normalize_eq_conjunct_grows in H; assumption);
    try (unfold pass_grows; simpl; reflexivity);
    intros H; apply normalize_eq_conjunct_grows in H;
    (etransitivity; [apply add_fixed_values_and_mark_grows | exact H]).
Qed.

Lemma normalize_binary_body_grows (SlotType : LogicalType) (slot : SlotDescriptor)
    i (c : ExprContainer) (s s' : Pass) :
  normalize_binary_body SlotType slot i c s = Some s' → pass_grows s s'.
Proof.
  unfold normalize_binary_body. pass_branches. apply fold_predicate_value_grows.
Qed.

Lemma normalize_not_in_or_not_equal_body_grows (SlotType : LogicalType)
    (slot : SlotDescriptor) i (c : ExprContainer) (s s' : Pass) :
  normalize_not_in_or_not_equal_body SlotType slot i c s = Some s' → pass_grows s s'.
Proof.
  unfold normalize_not_in_or_not_equal_body.
  destruct (normalized_at (flags s) i); [intros [= <-]; reflexivity|].
  destruct (root c) as [root_expr|]; [|discriminate]. cbn [mbind option_bind].
  lazymatch goal with |- mbind _ ?o = _ → _ => set (ne_part := o) end.
  assert (Hne : ∀ s1, ne_part = Some s1 → pass_grows s s1).
  { subst ne_part. intros s1. case_match.
    - apply fold_predicate_value_grows.
    - intros [= <-]. reflexivity. }
  destruct ne_part as [s1|]; [|discriminate]. cbn [mbind option_bind].
  specialize (Hne s1 eq_refl).
  pass_branches; try assumption.
  etransitivity; [exact Hne | apply add_fixed_values_and_mark_grows].
Qed.

Lemma normalize_is_null_body_grows (slot : SlotDescriptor) i (c : ExprContainer)
    (s s' : list bool * list TCondition) :
  normalize_is_null_body slot i c s = Some s' → fst_grows s s'.
Proof.
  unfold normalize_is_null_body. destruct s as [fl nulls]. pass_branches.
  unfold fst_grows. simpl. apply flags_grow_insert.
Qed.

Lemma normalize_in_runtime_filter_body_grows (slot : SlotDescriptor) i (c : ExprContainer)
    (s s' : list bool * ColumnValueRange) :
  normalize_in_runtime_filter_body slot i c s = Some s' → fst_grows s s'.
Proof.
  unfold normalize_in_runtime_filter_body. destruct s as [fl r]. pass_branches;
    unfold fst_grows; simpl; apply flags_grow_insert.
Qed.

#[local] Instance builder_grows_preorder : PreOrder builder_grows.
Proof.
  split.
  - intros b. split; [reflexivity|]. split; reflexivity.
  - intros b1 b2 b3 (He12 & Ha12 & Hf12) (He23 & Ha23 & Hf23).
    split; [congruence|]. split; [congruence|]. now transitivity (_normalized_exprs b2).
Qed.

Lemma pass_result_grows (body : nat → ExprContainer → Pass → option Pass)
    (exprs : list ExprContainer) fl (r : ColumnValueRange) fl' r' :
  (∀ i c s s', body i c s = Some s' → pass_grows s s') →
  (s ← for_each body exprs (mkPass fl r OK); Some (flags s, range s)) = Some (fl', r') →
  flags_grow fl fl'.
Proof.
  intros Hbody. unfold for_each.
  destruct (for_each_from _ _ _ _) as [s|] eqn:Hs; [|discriminate].
  cbn [mbind option_bind]. intros [= <- <-].
  apply (for_each_from_rel pass_grows body Hbody) in Hs. exact Hs.
Qed.

Lemma normalize_in_or_equal_predicate_grows (SlotType : LogicalType) (slot : SlotDescriptor)
    (exprs : list ExprContainer) fl (r : ColumnValueRange) fl' r' :
  normalize_in_or_equal_predicate SlotType slot exprs fl r = Some (fl', r') →
  flags_grow fl fl'.
Proof.
  unfold normalize_in_or_equal_predicate, normalize_in_or_equal_generic.
  case_bool_decide; apply pass_result_grows.
  - apply normalize_in_or_equal_date_body_grows.
  - apply normalize_in_or_equal_body_grows.
Qed.

Lemma normalize_binary_predicate_grows (SlotType : LogicalType) (slot : SlotDescriptor)
    (exprs : list ExprContainer) fl (r : ColumnValueRange) fl' r' :
  normalize_binary_predicate SlotType slot exprs fl r = Some (fl', r') →
  flags_grow fl fl'.
Proof. apply pass_result_grows, normalize_binary_body_grows. Qed.

Lemma normalize_not_in_or_not_equal_predicate_grows (SlotType : LogicalType)
    (slot : SlotDescriptor) (exprs : list ExprContainer) fl (r : ColumnValueRange) fl' r' :
  normalize_not_in_or_not_equal_predicate SlotType slot exprs fl r = Some (fl', r') →
  flags_grow fl fl'.
Proof. apply pass_result_grows, normalize_not_in_or_not_equal_body_grows. Qed.

Lemma normalize_is_null_predicate_grows (slot : SlotDescriptor)
    (exprs : list ExprContainer) fl (nulls : list TCondition) fl' nulls' :
  normalize_is_null_predicate slot exprs fl nulls = Some (fl', nulls') →
  flags_grow fl fl'.
Proof.
  unfold normalize_is_null_predicate, for_each. intros H.
  apply (for_each_from_rel fst_grows _ (normalize_is_null_body_grows slot)) in H. exact H.
Qed.

(** What the first loop of normalize_join_runtime_filter does at an IN
    runtime filter of the slot whose flag is not set yet. *)
Lemma normalize_in_runtime_filter_body_marks (slot : SlotDescriptor) i (c : ExprContainer)
    fl (r : ColumnValueRange) (root_expr : Expr) :
  is_in_runtime_filter_of slot c = true →
  root c = Some root_expr →
  normalized_at fl i = false →
  normalize_in_runtime_filter_body slot i c (fl, r)
  = Some (<[i:=true]> fl,
          if in_set_skipped (in_predicate root_expr) then r
          else (add_fixed_values FILTER_IN (hash_set (in_predicate root_expr)) r).2).
Proof.
  unfold is_in_runtime_filter_of, normalize_in_runtime_filter_body, in_set_skipped.
  intros Hrf Hroot Hunset. rewrite Hroot in *. rewrite Hunset. cbn [mbind option_bind].
  apply andb_true_iff in Hrf as [Hop Hrf]. rewrite Hop.
  destruct (get_child root_expr 0) as [l|]; [|discriminate]. cbn [mbind option_bind].
  apply andb_true_iff in Hrf as [Hrf Hjoin].
  apply andb_true_iff in Hrf as [Hrf Hmatch].
  apply andb_true_iff in Hrf as [Hslot Hty]. apply negb_true_iff in Hty.
  rewrite Hslot, Hty, Hmatch, Hjoin. simpl.
  now destruct (is_not_in _ || null_in_set _ || too_many_values _).
Qed.

Lemma normalize_in_runtime_filter_marks (slot : SlotDescriptor)
    (exprs : list ExprContainer) fl (r : ColumnValueRange) fl' r' i (c : ExprContainer) :
  for_each (normalize_in_runtime_filter_body slot) exprs (fl, r) = Some (fl', r') →
  exprs !! i = Some c → is_in_runtime_filter_of slot c = true →
  (i < length fl)%nat →
  fl' !! i = Some true.
Proof.
  intros Hloop Hc Hrf Hlen. unfold for_each in Hloop.
  destruct (for_each_from_at fst_grows _ (normalize_in_runtime_filter_body_grows slot)
              _ _ _ _ _ _ Hloop Hc) as ([fl1 r1] & [fl2 r2] & Hin & Hbody & Hout).
  rewrite Nat.add_0_l in Hbody. apply (flags_grow_set fl2 fl' i Hout).
  destruct (normalized_at fl1 i) eqn:Hat.
  - apply normalize_in_runtime_filter_body_grows in Hbody.
    apply (flags_grow_set fl1 fl2 i Hbody). now apply normalized_at_true.
  - assert (∃ root_expr, root c = Some root_expr) as [root_expr Hroot].
    { unfold is_in_runtime_filter_of in Hrf. destruct (root c); [eauto|discriminate]. }
    rewrite (normalize_in_runtime_filter_body_marks _ _ _ _ _ root_expr Hrf Hroot Hat) in Hbody.
    injection Hbody as <- _. apply list_lookup_insert_eq.
    destruct Hin as [Hl _]. simpl in Hl. lia.
Qed.

Lemma normalize_join_runtime_filter_grows opts (SlotType : LogicalType)
    (slot : SlotDescriptor) (r r' : ColumnValueRange) b b' :
  normalize_join_runtime_filter opts SlotType slot r b = Some (r', b') →
  builder_grows b b'
  ∧ ∀ i c, _exprs b !! i = Some c → is_in_runtime_filter_of slot c = true →
           (i < length (_normalized_exprs b))%nat →
           _normalized_exprs b' !! i = Some true.
Proof.
  unfold normalize_join_runtime_filter.
  destruct (for_each _ _ _) as [[fl r1]|] eqn:Hloop; [|discriminate].
  cbn [mbind option_bind].
  destruct (bind_runtime_filters _ _ _ _ _) as [r2 unarrived]. intros [= <- <-].
  split.
  - split; [reflexivity|]. split; [reflexivity|]. simpl.
    apply (for_each_from_rel fst_grows _ (normalize_in_runtime_filter_body_grows slot))
      in Hloop. exact Hloop.
  - intros i c Hc Hrf Hlen. simpl.
    eapply normalize_in_runtime_filter_marks; eassumption.
Qed.

Lemma normalize_predicate_grows opts (SlotType : LogicalType)
    (slot : SlotDescriptor) (r r' : ColumnValueRange) b b' :
  normalize_predicate opts SlotType slot r b = Some (r', b') →
  builder_grows b b'
  ∧ ∀ i c, _exprs b !! i = Some c → is_in_runtime_filter_of slot c = true →
           (i < length (_normalized_exprs b))%nat →
           _normalized_exprs b' !! i = Some true.
Proof.
  unfold normalize_predicate.
  destruct (normalize_in_or_equal_predicate _ _ _ _ _) as [[fl1 r1]|] eqn:H1;
    [|discriminate]. cbn [mbind option_bind].
  destruct (normalize_binary_predicate _ _ _ _ _) as [[fl2 r2]|] eqn:H2;
    [|discriminate]. cbn [mbind option_bind].
  destruct (normalize_not_in_or_not_equal_predicate _ _ _ _ _) as [[fl3 r3]|] eqn:H3;
    [|discriminate]. cbn [mbind option_bind].
  destruct (normalize_is_null_predicate _ _ _ _) as [[fl4 nulls]|] eqn:H4;
    [|discriminate]. cbn [mbind option_bind].
  intros H5. apply normalize_join_runtime_filter_grows in H5 as [(He & Ha & Hf) Hmark].
  apply normalize_in_or_equal_predicate_grows in H1.
  apply normalize_binary_predicate_grows in H2.
  apply normalize_not_in_or_not_equal_predicate_grows in H3.
  apply normalize_is_null_predicate_grows in H4.
  assert (Hfl : flags_grow (_normalized_exprs b) fl4).
  { transitivity fl1; [assumption|]. transitivity fl2; [assumption|].
    now transitivity fl3. }
  simpl in *. split.
  - split; [assumption|]. split; [assumption|]. now transitivity fl4.
  - intros i c Hc Hrf Hlen. apply (Hmark i c Hc Hrf).
    destruct Hfl as [-> _]. exact Hlen.
Qed.

Lemma ColumnRangeBuilder_grows opts (lt : LogicalType) (slot : SlotDescriptor) b b' :
  ColumnRangeBuilder opts lt slot b = Some b' →
  builder_grows b b'
  ∧ (type_dispatch_predicate lt = true → builds_range lt = true →
     ∀ i c, _exprs b !! i = Some c → is_in_runtime_filter_of slot c = true →
            (i < length (_normalized_exprs b))%nat →
            _normalized_exprs b' !! i = Some true).
Proof.
  unfold ColumnRangeBuilder, builds_range.
  destruct (_ || lt_is_binary lt) eqn:Hskip.
  - intros [= <-]. split; [reflexivity|].
    intros -> Hb. discriminate Hb.
  - destruct (LookupOrInsert _ _ _) as [ranges v].
    destruct (normalize_predicate _ _ _ _ _) as [[r b1]|] eqn:Hnorm; [|discriminate].
    cbn [mbind option_bind]. intros [= <-].
    apply normalize_predicate_grows in Hnorm as [(He & Ha & Hf) Hmark]. simpl in *.
    split; [split; [assumption|split; assumption]|].
    intros _ _ i c Hc Hrf Hlen. now apply (Hmark i c).
Qed.

Lemma normalize_expressions_fold_None opts (slots : list SlotDescriptor) :
  foldl (λ acc slot,
           b ← acc;
           if type_dispatch_predicate (ltype (slot_type slot))
           then ColumnRangeBuilder opts (ltype (slot_type slot)) slot b
           else Some b)
        None slots = None.
Proof. induction slots as [|slot slots IH]; [reflexivity | exact IH]. Qed.

Lemma normalize_expressions_fold_grows opts (slots : list SlotDescriptor) :
  ∀ b b',
    foldl (λ acc slot,
             b ← acc;
             if type_dispatch_predicate (ltype (slot_type slot))
             then ColumnRangeBuilder opts (ltype (slot_type slot)) slot b
             else Some b)
          (Some b) slots = Some b' →
    builder_grows b b'
    ∧ ∀ slot i c,
        slot ∈ slots → builds_range (ltype (slot_type slot)) = true →
        _exprs b !! i = Some c → is_in_runtime_filter_of slot c = true →
        (i < length (_normalized_exprs b))%nat →
        _normalized_exprs b' !! i = Some true.
Proof.
  induction slots as [|slot0 slots IH]; intros b b'.
  - intros [= <-]. split; [reflexivity|]. intros slot i c Hin. inversion Hin.
  - cbn [foldl mbind option_bind].
    destruct (type_dispatch_predicate (ltype (slot_type slot0))) eqn:Hdisp.
    + destruct (ColumnRangeBuilder opts _ slot0 b) as [b1|] eqn:Hb1;
        [|now rewrite normalize_expressions_fold_None].
      intros Hrest. apply IH in Hrest as [Hgrow Hmark].
      apply ColumnRangeBuilder_grows in Hb1 as [Hgrow1 Hmark1].
      split; [now transitivity b1|].
      destruct Hgrow1 as (He1 & _ & Hf1).
      intros slot i c Hin Hbuilds Hc Hrf Hlen.
      apply elem_of_cons in Hin as [->|Hin].
      * destruct Hgrow as (_ & _ & Hf). apply (flags_grow_set _ _ i Hf).
        now apply (Hmark1 Hdisp Hbuilds i c).
      * apply (Hmark slot i c Hin Hbuilds); [congruence | assumption |].
        destruct Hf1 as [-> _]. exact Hlen.
    + intros Hrest. apply IH in Hrest as [Hgrow Hmark].
      split; [assumption|].
      intros slot i c Hin Hbuilds Hc Hrf Hlen.
      apply elem_of_cons in Hin as [->|Hin].
      * unfold builds_range in Hbuilds. rewrite Hdisp in Hbuilds. discriminate Hbuilds.
      * now apply (Hmark slot i c).
Qed.

Lemma build_olap_filters_grows b : builder_grows b (build_olap_filters b).2.
Proof.
  unfold build_olap_filters. destruct (build_olap_filters_from _ _). simpl.
  split; [reflexivity|]. split; reflexivity.
Qed.

Lemma build_scan_keys_grows opts (unlimited : bool) (max_scan_key_num : Z) b st b' :
  build_scan_keys opts unlimited max_scan_key_num b = Some (st, b') → builder_grows b b'.
Proof.
  unfold build_scan_keys. case_match.
  - destruct (extend_scan_keys _ _ _) as [[keys ranges]|]; [|discriminate].
    cbn [mbind option_bind]. intros [= _ <-]. split; [reflexivity|]. split; reflexivity.
  - intros [= _ <-]. split; [reflexivity|]. split; reflexivity.
Qed.

Lemma build_column_expr_predicates_from_grows (slots : list SlotDescriptor)
    (es : list ExprContainer) :
  ∀ i s s', build_column_expr_predicates_from slots i es s = Some s' → fst_grows s s'.
Proof.
  induction es as [|c es IH]; intros i [fl m] s'; cbn [build_column_expr_predicates_from].
  - intros [= <-]. reflexivity.
  - destruct (normalized_at fl i); [apply IH|].
    destruct (root c) as [root_expr|]; [|discriminate]. cbn [mbind option_bind].
    destruct (negb _); [apply IH|].
    destruct (_ ≫= slot_id_to_index slots) as [index|]; [|apply IH].
    destruct (slots !! index) as [slot_desc|]; [|discriminate]. cbn [mbind option_bind].
    destruct (negb _); [apply IH|].
    destruct (expr_context c) as [expr_ctx|st].
    + intros H. apply IH in H. etransitivity; [|exact H].
      unfold fst_grows. simpl. apply flags_grow_insert.
    + intros [= <-]. unfold fst_grows. simpl. reflexivity.
Qed.

Lemma build_column_expr_predicates_grows opts b b' :
  build_column_expr_predicates opts b = Some b' → builder_grows b b'.
Proof.
  unfold build_column_expr_predicates.
  destruct (build_column_expr_predicates_from _ _ _ _) as [[fl m]|] eqn:H; [|discriminate].
  cbn [mbind option_bind]. intros [= <-].
  apply build_column_expr_predicates_from_grows in H.
  split; [reflexivity|]. split; [reflexivity|exact H].
Qed.

Lemma normalize_and_or_loop_grows {E : Type}
    (step : E → list ChunkPredicateBuilder →
            option (StatusOr bool * list ChunkPredicateBuilder))
    (allow_partial_normalized : bool) (es : list E) :
  ∀ i fl cs res fl' cs',
    normalize_and_or_loop step allow_partial_normalized es i fl cs = Some (res, (fl', cs')) →
    flags_grow fl fl'.
Proof.
  induction es as [|e es IH]; intros i fl cs res fl' cs'; cbn [normalize_and_or_loop].
  - intros [= _ <- _]. reflexivity.
  - destruct (normalized_at fl i) eqn:Hat; [apply IH|].
    destruct (step e cs) as [[[normalized|st] cs1]|]; [| |discriminate].
    + destruct (negb normalized && negb allow_partial_normalized).
      * intros [= _ <- _]. reflexivity.
      * intros H. apply IH in H. etransitivity; [|exact H].
        now apply flags_grow_insert_unset.
    + intros [= _ <- _]. reflexivity.
Qed.

Lemma _normalize_and_or_predicates_grows opts b res b' :
  _normalize_and_or_predicates opts b = Some (res, b') → builder_grows b b'.
Proof.
  unfold _normalize_and_or_predicates.
  destruct (normalize_and_or_loop _ _ _ _ _ _) as [[res1 [fl cs]]|] eqn:H; [|discriminate].
  cbn [mbind option_bind]. intros [= _ <-].
  apply normalize_and_or_loop_grows in H.
  split; [reflexivity|]. split; [reflexivity|exact H].
Qed.

(** Everything parse_conjuncts does after normalize_expressions keeps the
    flags that are set. *)
Lemma parse_conjuncts_after_normalize opts b res b' :
  _allow_partial_normalized b = true →
  parse_conjuncts opts b = Some (res, b') →
  ∃ b1, normalize_expressions opts b = Some b1 ∧ builder_grows b1 b'.
Proof.
  intros Hpartial. unfold parse_conjuncts. rewrite Hpartial.
  destruct (normalize_expressions opts b) as [b1|]; [|discriminate].
  cbn [mbind option_bind]. intros H. exists b1. split; [reflexivity|].
  pose proof (build_olap_filters_grows b1) as Hfilters.
  destruct (build_olap_filters b1) as [st b2]. simpl in Hfilters.
  destruct (ok st) eqn:Hst; cbn [negb] in H.
  - destruct (build_scan_keys _ _ _ _) as [[st3 b3]|] eqn:Hkeys; [|discriminate].
    apply build_scan_keys_grows in Hkeys. cbn [mbind option_bind] in H.
    destruct (ok st3); cbn [negb] in H.
    + destruct (enable_column_expr_predicate opts).
      * destruct (build_column_expr_predicates opts b3) as [b4|] eqn:Hcol; [|discriminate].
        apply build_column_expr_predicates_grows in Hcol. cbn [mbind option_bind] in H.
        apply _normalize_and_or_predicates_grows in H.
        transitivity b2; [assumption|]. transitivity b3; [assumption|].
        now transitivity b4.
      * cbn [mbind option_bind] in H. apply _normalize_and_or_predicates_grows in H.
        transitivity b2; [assumption|]. now transitivity b3.
    + simplify_eq. transitivity b2; assumption.
  - cbn [mbind option_bind negb] in H. rewrite Hst in H. cbn [negb] in H.
    simplify_eq. assumption.
Qed.

(** C7: an IN predicate on the slot that is tagged as a join runtime
    filter has its flag set by the first loop of
    normalize_join_runtime_filter before its value set is looked at; when
    the set is a NOT IN, holds NULL or is larger than the cap, the range is
    returned as it was.  The flag is set when normalize_join_runtime_filter
    returns, and when parse_conjuncts of a builder that allows partial
    normalisation returns, whatever it returns, so that the conjunct is at
    none of the positions the residual list is made of. *)
Theorem in_runtime_filter_is_marked opts b (slot : SlotDescriptor) i (c : ExprContainer)
    (root_expr : Expr) :
  is_in_runtime_filter_of slot c = true →
  root c = Some root_expr →
  _exprs b !! i = Some c →
  length (_normalized_exprs b) = length (_exprs b) →
  (∀ fl (r : ColumnValueRange),
     normalized_at fl i = false →
     normalize_in_runtime_filter_body slot i c (fl, r)
     = Some (<[i:=true]> fl,
             if in_set_skipped (in_predicate root_expr) then r
             else (add_fixed_values FILTER_IN (hash_set (in_predicate root_expr)) r).2))
  ∧ (∀ (SlotType : LogicalType) (r r' : ColumnValueRange) b',
       normalize_join_runtime_filter opts SlotType slot r b = Some (r', b') →
       _normalized_exprs b' !! i = Some true)
  ∧ (∀ res b',
       _allow_partial_normalized b = true →
       slot ∈ decoded_slots opts →
       builds_range (ltype (slot_type slot)) = true →
       parse_conjuncts opts b = Some (res, b') →
       is_pred_normalized b' i = Some true
       ∧ ∀ num_preds, i ∉ residual_indices b' num_preds).
Proof.
  intros Hrf Hroot Hc Hwf.
  assert (Hlen : (i < length (_normalized_exprs b))%nat).
  { rewrite Hwf. eapply lookup_lt_Some; eassumption. }
  split; [|split].
  - intros fl r Hunset. now apply normalize_in_runtime_filter_body_marks.
  - intros SlotType r r' b' Hnorm.
    apply normalize_join_runtime_filter_grows in Hnorm as [_ Hmark].
    now apply (Hmark i c).
  - intros res b' Hpartial Hslot Hbuilds Hparse.
    destruct (parse_conjuncts_after_normalize _ _ _ _ Hpartial Hparse)
      as (b1 & Hnorm & _ & _ & Hgrow).
    apply normalize_expressions_fold_grows in Hnorm as [_ Hmark].
    assert (Hset : _normalized_exprs b' !! i = Some true).
    { apply (flags_grow_set _ _ i Hgrow). now apply (Hmark slot i c). }
    assert (Hat : normalized_at (_normalized_exprs b') i = true)
      by now apply normalized_at_true.
    split.
    + rewrite is_pred_normalized_total. now rewrite Hat.
    + intros num_preds Hin. apply elem_of_residual_indices in Hin as [_ Hin]. congruence.
Qed.

(* ------------------------------------------------------------------- *)
(** *** AND/OR sub-builders *)
(* ------------------------------------------------------------------- *)

(** Induction on an expression with its children. *)
Lemma Expr_children_ind (P : Expr → Prop) :
  (∀ e, Forall P (children e) → P e) → ∀ e, P e.
Proof.
  intros H. fix IH 1. intros e. apply H.
  destruct e as [? ? ? ? ? ? cs ? ? ? ?]. simpl.
  induction cs as [|c cs IHcs]; constructor; [apply IH | exact IHcs].
Qed.

Section Loop.

Context {E : Type}.
Variable step : E → list ChunkPredicateBuilder →
                option (StatusOr bool * list ChunkPredicateBuilder).

(** The loop writes no flag in front of the position it starts at. *)
Lemma normalize_and_or_loop_lower (allow_partial_normalized : bool) (es : list E) :
  ∀ i fl cs res fl' cs',
    normalize_and_or_loop step allow_partial_normalized es i fl cs = Some (res, (fl', cs')) →
    ∀ j, (j < i)%nat → fl' !! j = fl !! j.
Proof.
  induction es as [|e es IH]; intros i fl cs res fl' cs'; cbn [normalize_and_or_loop].
  - intros [= _ <- _]. reflexivity.
  - destruct (normalized_at fl i); [intros H j Hj; apply (IH _ _ _ _ _ _ H); lia|].
    destruct (step e cs) as [[[normalized|st] cs1]|]; [| |discriminate].
    + destruct (negb normalized && negb allow_partial_normalized).
      * intros [= _ <- _]. reflexivity.
      * intros H j Hj. rewrite (IH _ _ _ _ _ _ H) by lia.
        apply list_lookup_insert_ne. lia.
    + intros [= _ <- _]. reflexivity.
Qed.

(** Partial normalisation forbidden: one refused member whose flag is
    not set makes the loop return false. *)
Lemma normalize_and_or_loop_refused (es : list E) :
  never_fails step →
  ∀ i fl cs res fl' cs' k e,
    normalize_and_or_loop step false es i fl cs = Some (res, (fl', cs')) →
    es !! k = Some e → normalized_at fl (i + k) = false → refuses step e →
    res = Value false.
Proof.
  intros Hnofail. induction es as [|e0 es IH]; intros i fl cs res fl' cs' k e;
    [discriminate|]. cbn [normalize_and_or_loop].
  intros Hloop Hk Hunset Hrefuse. destruct k as [|k]; simpl in Hk.
  - injection Hk as ->. rewrite Nat.add_0_r in Hunset. rewrite Hunset in Hloop.
    destruct (Hrefuse cs) as [cs1 Hstep]. rewrite Hstep in Hloop. simpl in Hloop.
    now injection Hloop as <- _ _.
  - replace (i + S k)%nat with (S i + k)%nat in Hunset by lia.
    destruct (normalized_at fl i); [eapply IH; eassumption|].
    destruct (step e0 cs) as [[[normalized|st] cs1]|] eqn:Hstep; [| |discriminate].
    + destruct normalized; simpl in Hloop.
      * eapply (IH _ _ _ _ _ _ _ _ Hloop Hk); [|assumption].
        unfold normalized_at in *. rewrite list_lookup_insert_ne by lia. exact Hunset.
      * now injection Hloop as <- _ _.
    + now apply Hnofail in Hstep.
Qed.

(** Partial normalisation allowed: the flag of a refused member is not
    set when the loop returns. *)
Lemma normalize_and_or_loop_residual (es : list E) :
  ∀ i fl cs res fl' cs' k e,
    normalize_and_or_loop step true es i fl cs = Some (res, (fl', cs')) →
    es !! k = Some e → normalized_at fl (i + k) = false → refuses step e →
    normalized_at fl' (i + k) = false.
Proof.
  induction es as [|e0 es IH]; intros i fl cs res fl' cs' k e; [discriminate|].
  cbn [normalize_and_or_loop].
  intros Hloop Hk Hunset Hrefuse. destruct k as [|k]; simpl in Hk.
  - injection Hk as ->. rewrite Nat.add_0_r in *. rewrite Hunset in Hloop.
    destruct (Hrefuse cs) as [cs1 Hstep]. rewrite Hstep in Hloop. simpl in Hloop.
    unfold normalized_at.
    rewrite (normalize_and_or_loop_lower _ _ _ _ _ _ _ _ Hloop i) by lia.
    apply bool_decide_eq_false. intros Hset.
    apply list_lookup_insert_Some in Hset as [(_ & Hset & _)|[_ Hset]].
    + discriminate Hset.
    + apply normalized_at_true in Hset. congruence.
  - replace (i + S k)%nat with (S i + k)%nat in * by lia.
    destruct (normalized_at fl i); [eapply IH; eassumption|].
    destruct (step e0 cs) as [[[normalized|st] cs1]|] eqn:Hstep; [| |discriminate].
    + rewrite andb_false_r in Hloop.
      eapply (IH _ _ _ _ _ _ _ _ Hloop Hk); [|assumption].
      unfold normalized_at in *. rewrite list_lookup_insert_ne by lia. exact Hunset.
    + injection Hloop as _ <- _. assumption.
Qed.

(** Partial normalisation forbidden, every member answered: the loop
    answers, and with true only when every flag is set. *)
Lemma normalize_and_or_loop_all (es : list E) :
  Forall (λ e, ∀ cs, ∃ n cs', step e cs = Some (Value n, cs')) es →
  ∀ i fl cs,
    ∃ n fl' cs',
      normalize_and_or_loop step false es i fl cs = Some (Value n, (fl', cs'))
      ∧ (n = true →
         ∀ k, (k < length es)%nat → (i + k < length fl)%nat →
              fl' !! (i + k)%nat = Some true).
Proof.
  induction 1 as [|e es He _ IH]; intros i fl cs; cbn [normalize_and_or_loop].
  - exists true, fl, cs. split; [reflexivity|]. simpl. intros _ k Hk. lia.
  - assert (Hhead : ∀ fl1 cs1 n fl' cs',
              normalize_and_or_loop step false es (S i) fl1 cs1 = Some (Value n, (fl', cs')) →
              fl1 !! i = Some true → length fl1 = length fl →
              (n = true →
               ∀ k, (k < length es)%nat → (S i + k < length fl1)%nat →
                    fl' !! (S i + k)%nat = Some true) →
              n = true →
              ∀ k, (k < S (length es))%nat → (i + k < length fl)%nat →
                   fl' !! (i + k)%nat = Some true).
    { intros fl1 cs1 n fl' cs' Hloop Hi Hlen Htail Hn [|k] Hk Hik.
      - rewrite Nat.add_0_r.
        rewrite (normalize_and_or_loop_lower _ _ _ _ _ _ _ _ Hloop i) by lia. exact Hi.
      - replace (i + S k)%nat with (S i + k)%nat by lia.
        apply (Htail Hn); lia. }
    destruct (normalized_at fl i) eqn:Hat.
    + destruct (IH (S i) fl cs) as (n & fl' & cs' & Hloop & Htail).
      exists n, fl', cs'. split; [exact Hloop|].
      apply (Hhead fl cs n fl' cs' Hloop); [now apply normalized_at_true|reflexivity|exact Htail].
    + destruct (He cs) as (normalized & cs1 & Hstep). rewrite Hstep.
      destruct normalized; simpl.
      * destruct (IH (S i) (<[i:=true]> fl) cs1) as (n & fl' & cs' & Hloop & Htail).
        exists n, fl', cs'. split; [exact Hloop|].
        intros Hn k Hk Hik.
        apply (Hhead (<[i:=true]> fl) cs1 n fl' cs' Hloop); try assumption.
        -- apply list_lookup_insert_eq. lia.
        -- apply length_insert.
      * exists false, fl, cs1. split; [reflexivity|]. discriminate.
Qed.

End Loop.

Lemma slot_id_to_index_lookup (slots : list SlotDescriptor) (slot_id : SlotId) (index : nat) :
  slot_id_to_index slots slot_id = Some index → is_Some (slots !! index).
Proof.
  unfold slot_id_to_index.
  destruct (list_find _ slots) as [[k slot_desc]|] eqn:Hfind; [|discriminate].
  intros [= <-]. apply list_find_Some in Hfind as [Hk _]. eauto.
Qed.

(** Over raw containers the search for column expression predicates meets
    no undefined dereference. *)
Lemma build_column_expr_predicates_from_total (slots : list SlotDescriptor)
    (es : list ExprContainer) :
  Forall (λ c, is_Some (root c)) es →
  ∀ i s, is_Some (build_column_expr_predicates_from slots i es s).
Proof.
  induction 1 as [|c es [root_expr Hroot] _ IH]; intros i [fl m];
    cbn [build_column_expr_predicates_from]; [eauto|].
  destruct (normalized_at fl i); [apply IH|].
  rewrite Hroot. cbn [mbind option_bind].
  destruct (negb _); [apply IH|].
  destruct (get_slot_ids root_expr !! 0%nat) as [slot_id|]; cbn [mbind option_bind];
    [|apply IH].
  destruct (slot_id_to_index slots slot_id) as [index|] eqn:Hindex; [|apply IH].
  destruct (slot_id_to_index_lookup _ _ _ Hindex) as [slot_desc ->].
  cbn [mbind option_bind].
  destruct (negb _); [apply IH|].
  destruct (expr_context c); [apply IH | eauto].
Qed.

Lemma child_after_column_exprs_total opts (root_expr : Expr) (ty : BuilderType) :
  ∃ child_builder,
    child_after_column_exprs opts root_expr ty = Some child_builder
    ∧ _exprs child_builder = build_raw_expr_containers (children root_expr)
    ∧ _allow_partial_normalized child_builder = false
    ∧ _child_builders child_builder = []
    ∧ length (_normalized_exprs child_builder) = length (children root_expr).
Proof.
  unfold child_after_column_exprs.
  set (child := new_builder ty (build_raw_expr_containers (children root_expr)) false).
  assert (Hlen : length (_normalized_exprs child) = length (children root_expr)).
  { subst child. simpl. rewrite length_replicate. unfold build_raw_expr_containers.
    apply length_map. }
  destruct (enable_column_expr_predicate opts).
  - unfold build_column_expr_predicates.
    destruct (build_column_expr_predicates_from_total (decoded_slots opts) (_exprs child)
                ltac:(subst child; simpl; unfold build_raw_expr_containers;
                      apply Forall_forall; intros c Hc;
                      apply list_elem_of_fmap in Hc as (e & -> & _); simpl; eauto)
                0%nat (_normalized_exprs child, slot_index_to_expr_ctxs child))
      as [[fl m] Hcol].
    rewrite Hcol. cbn [mbind option_bind]. eexists. split; [reflexivity|].
    apply build_column_expr_predicates_from_grows in Hcol as [Hl _]. simpl in Hl.
    simpl. repeat split; try reflexivity. rewrite Hl.
    rewrite length_replicate. unfold build_raw_expr_containers. apply length_map.
  - exists child. repeat split; try reflexivity. exact Hlen.
Qed.

(** The flags of the child builder do not depend on its kind. *)
Lemma child_after_column_exprs_flags opts (root_expr : Expr) (ty ty' : BuilderType) :
  _normalized_exprs <$> child_after_column_exprs opts root_expr ty
  = _normalized_exprs <$> child_after_column_exprs opts root_expr ty'.
Proof.
  unfold child_after_column_exprs, build_column_expr_predicates.
  destruct (enable_column_expr_predicate opts); [|reflexivity]. simpl.
  now destruct (build_column_expr_predicates_from _ _ _ _) as [[fl m]|].
Qed.

Lemma normalize_and_or_predicate_with_total
    (parse : Expr → BuilderType → option (StatusOr bool * ChunkPredicateBuilder))
    (root_expr : Expr) :
  (∀ ty, ∃ normalized child,
     parse root_expr ty = Some (Value normalized, child)
     ∧ parsed_child root_expr normalized child) →
  ∀ cs, ∃ normalized cs',
    normalize_and_or_predicate_with parse root_expr cs = Some (Value normalized, cs')
    ∧ (normalized = false → cs' = cs)
    ∧ (normalized = true →
       ∃ child, cs' = cs ++ [child] ∧ parsed_child root_expr true child).
Proof.
  intros Hparse cs. unfold normalize_and_or_predicate_with.
  assert (Hvia : ∀ ty, ∃ normalized cs',
    (parse root_expr ty ≫= λ '(res, child_builder),
       match res : StatusOr bool with
       | Error st => Some (Error st, cs)
       | Value normalized =>
           Some (Value normalized, if normalized then cs ++ [child_builder] else cs)
       end) = Some (Value normalized, cs')
    ∧ (normalized = false → cs' = cs)
    ∧ (normalized = true →
       ∃ child, cs' = cs ++ [child] ∧ parsed_child root_expr true child)).
  { intros ty. destruct (Hparse ty) as (normalized & child & -> & Hchild).
    cbn [mbind option_bind]. exists normalized. eexists. split; [reflexivity|].
    destruct normalized.
    - split; [discriminate|]. intros _. eauto.
    - split; [reflexivity|discriminate]. }
  case_bool_decide; [apply Hvia|]. case_bool_decide; [apply Hvia|].
  exists false, cs. split; [reflexivity|]. split; [reflexivity|discriminate].
Qed.

(** The parse of a nested builder always answers, never with a status. *)
Lemma parse_child_total opts (root_expr : Expr) :
  ∀ ty, ∃ normalized child,
    parse_child opts root_expr ty = Some (Value normalized, child)
    ∧ parsed_child root_expr normalized child.
Proof.
  induction root_expr as [root_expr IH] using Expr_children_ind. intros ty.
  destruct root_expr as [o nt t ic isr ids cs ev ip inf idm]. cbn [parse_child children] in *.
  destruct (child_after_column_exprs_total opts (mkExpr o nt t ic isr ids cs ev ip inf idm) ty)
    as (child1 & -> & Hexprs & Hpartial & Hnone & Hlen).
  cbn [mbind option_bind]. simpl in Hexprs, Hlen.
  destruct (normalize_and_or_loop_all
              (λ e, normalize_and_or_predicate_with (parse_child opts) e) cs
              ltac:(eapply Forall_impl; [exact IH|];
                    intros e He cs0;
                    destruct (normalize_and_or_predicate_with_total _ e He cs0)
                      as (n & cs' & Hn & _); eauto)
              0%nat (_normalized_exprs child1) (_child_builders child1))
    as (n & fl' & cs' & Hloop & Hall).
  rewrite Hloop. cbn [mbind option_bind]. exists n. eexists. split; [reflexivity|].
  pose proof (normalize_and_or_loop_grows _ _ _ _ _ _ _ _ _ Hloop) as [Hl _].
  split; [exact Hexprs|]. split; [exact Hpartial|]. simpl.
  split; [congruence|].
  intros Hn. apply Forall_lookup. intros k flag Hk.
  assert (Hlt : (k < length fl')%nat) by (eapply lookup_lt_Some; eassumption).
  specialize (Hall Hn k). simpl in Hall. rewrite Hall in Hk by lia. congruence.
Qed.

Lemma parse_child_unfold opts (root_expr : Expr) (ty : BuilderType) :
  parse_child opts root_expr ty
  = (child_builder ← child_after_column_exprs opts root_expr ty;
     '(res, (fl, cs)) ←
        normalize_and_or_loop
          (λ e, normalize_and_or_predicate_with (parse_child opts) e)
          false (children root_expr) 0%nat
          (_normalized_exprs child_builder) (_child_builders child_builder);
     Some (res, set_child_builders cs (set_normalized_exprs fl child_builder))).
Proof. destruct root_expr. reflexivity. Qed.

Lemma _normalize_and_or_predicate_total opts (root_expr : Expr) :
  ∀ cs, ∃ normalized cs',
    _normalize_and_or_predicate opts root_expr cs = Some (Value normalized, cs')
    ∧ (normalized = false → cs' = cs)
    ∧ (normalized = true →
       ∃ child, cs' = cs ++ [child] ∧ parsed_child root_expr true child).
Proof.
  apply normalize_and_or_predicate_with_total, parse_child_total.
Qed.

(** The answer for an expression does not depend on the child builders the
    parent holds. *)
Lemma and_or_verdict_any opts (root_expr : Expr) (cs : list ChunkPredicateBuilder) :
  fst <$> _normalize_and_or_predicate opts root_expr cs = and_or_verdict opts root_expr.
Proof.
  unfold and_or_verdict, _normalize_and_or_predicate, normalize_and_or_predicate_with.
  assert (Hvia : ∀ ty cs1 cs2,
    fst <$> (parse_child opts root_expr ty ≫= λ '(res, child_builder),
       match res : StatusOr bool with
       | Error st => Some (Error st, cs1)
       | Value normalized =>
           Some (Value normalized, if normalized then cs1 ++ [child_builder] else cs1)
       end)
    = fst <$> (parse_child opts root_expr ty ≫= λ '(res, child_builder),
       match res : StatusOr bool with
       | Error st => Some (Error st, cs2)
       | Value normalized =>
           Some (Value normalized, if normalized then cs2 ++ [child_builder] else cs2)
       end)).
  { intros ty cs1 cs2. destruct (parse_child opts root_expr ty) as [[[n|st] child]|];
      reflexivity. }
  case_bool_decide; [apply Hvia|]. case_bool_decide; [apply Hvia|]. reflexivity.
Qed.

Lemma and_or_verdict_refuses opts (root_expr : Expr) :
  and_or_verdict opts root_expr = Some (Value false) →
  ∀ cs, _normalize_and_or_predicate opts root_expr cs = Some (Value false, cs).
Proof.
  intros Hverdict cs.
  destruct (_normalize_and_or_predicate_total opts root_expr cs)
    as (n & cs' & Hcall & Hfalse & _).
  pose proof (and_or_verdict_any opts root_expr cs) as Hany.
  rewrite Hcall, Hverdict in Hany. simpl in Hany. injection Hany as ->.
  now rewrite (Hfalse eq_refl) in Hcall.
Qed.

(** A member the column expression pass left unset and the AND/OR step
    refuses makes the parse of the child builder answer false. *)
Lemma parse_child_refused opts (root_expr : Expr) (ty : BuilderType)
    (child1 : ChunkPredicateBuilder) j (member : Expr) :
  child_after_column_exprs opts root_expr ty = Some child1 →
  children root_expr !! j = Some member →
  normalized_at (_normalized_exprs child1) j = false →
  and_or_verdict opts member = Some (Value false) →
  ∃ child, parse_child opts root_expr ty = Some (Value false, child).
Proof.
  intros Hchild Hmember Hunset Hverdict.
  destruct (parse_child_total opts root_expr ty) as (n & child & Hparse & _).
  exists child. rewrite Hparse. do 2 f_equal.
  rewrite parse_child_unfold, Hchild in Hparse. cbn [mbind option_bind] in Hparse.
  destruct (normalize_and_or_loop _ _ _ _ _ _) as [[res [fl cs]]|] eqn:Hloop;
    [|discriminate].
  cbn [mbind option_bind] in Hparse. injection Hparse as -> _.
  eapply (normalize_and_or_loop_refused _ (children root_expr)) in Hloop;
    [exact Hloop | | exact Hmember | exact Hunset |].
  - intros e cs0 st cs' Hstep.
    destruct (_normalize_and_or_predicate_total opts e cs0) as (n' & cs1 & Hcall & _).
    unfold _normalize_and_or_predicate in Hcall. congruence.
  - intros cs0. exists cs0. now apply and_or_verdict_refuses.
Qed.

(** C1: _normalize_and_or_predicate always answers, and either adds one
    child builder in which every member's flag is set, or answers false
    and leaves the parent's child builders as they were.  When one member
    of the subtree is neither taken as a column expression predicate nor
    accepted by the AND/OR step, the answer is false: nothing of the
    subtree is retained.  In the parent, for a conjunct so refused whose
    flag is not set, _normalize_and_or_predicates leaves the flag unset, so
    that the conjunct is residual, when the parent allows partial
    normalisation, and answers false itself when it does not. *)
Theorem or_subtree_all_or_nothing opts (root_expr : Expr) :
  (∀ cs, ∃ normalized cs',
     _normalize_and_or_predicate opts root_expr cs = Some (Value normalized, cs')
     ∧ (normalized = false → cs' = cs)
     ∧ (normalized = true →
        ∃ child, cs' = cs ++ [child] ∧ parsed_child root_expr true child))
  ∧ (∀ ty child1 j member,
       child_after_column_exprs opts root_expr ty = Some child1 →
       children root_expr !! j = Some member →
       normalized_at (_normalized_exprs child1) j = false →
       and_or_verdict opts member = Some (Value false) →
       ∀ cs, _normalize_and_or_predicate opts root_expr cs = Some (Value false, cs))
  ∧ (∀ b i c res b',
       _exprs b !! i = Some c → root c = Some root_expr →
       normalized_at (_normalized_exprs b) i = false →
       and_or_verdict opts root_expr = Some (Value false) →
       _normalize_and_or_predicates opts b = Some (res, b') →
       if _allow_partial_normalized b
       then is_pred_normalized b' i = Some false
            ∧ i ∈ residual_indices b' (length (_exprs b))
       else res = Value false).
Proof.
  split; [apply _normalize_and_or_predicate_total|split].
  - intros ty child1 j member Hchild Hmember Hunset Hverdict.
    apply and_or_verdict_refuses.
    unfold and_or_verdict, _normalize_and_or_predicate, normalize_and_or_predicate_with.
    assert (Hvia : ∀ ty', fst <$>
      (parse_child opts root_expr ty' ≫= λ '(res, child_builder),
         match res : StatusOr bool with
         | Error st => Some (Error st, [])
         | Value normalized =>
             Some (Value normalized, if normalized then [] ++ [child_builder] else [])
         end) = Some (Value false)).
    { intros ty'.
      destruct (child_after_column_exprs_total opts root_expr ty') as (child2 & Hchild2 & _).
      pose proof (child_after_column_exprs_flags opts root_expr ty ty') as Hflags.
      rewrite Hchild, Hchild2 in Hflags. simpl in Hflags. injection Hflags as Hflags.
      rewrite Hflags in Hunset.
      destruct (parse_child_refused opts root_expr ty' child2 j member
                  Hchild2 Hmember Hunset Hverdict) as [child ->].
      reflexivity. }
    case_bool_decide; [apply Hvia|]. case_bool_decide; [apply Hvia|]. reflexivity.
  - intros b i c res b' Hc Hroot Hunset Hverdict.
    unfold _normalize_and_or_predicates.
    destruct (normalize_and_or_loop _ _ _ _ _ _) as [[res1 [fl cs]]|] eqn:Hloop;
      [|discriminate].
    cbn [mbind option_bind]. intros [= <- <-].
    assert (Hrefuse : refuses
              (λ c cs, root_expr ← root c; _normalize_and_or_predicate opts root_expr cs) c).
    { intros cs0. exists cs0. rewrite Hroot. cbn [mbind option_bind].
      now apply and_or_verdict_refuses. }
    destruct (_allow_partial_normalized b).
    + apply (normalize_and_or_loop_residual _ _ _ _ _ _ _ _ i c) in Hloop;
        try assumption.
      simpl in Hloop. split.
      * rewrite is_pred_normalized_total. simpl. now rewrite Hloop.
      * apply elem_of_residual_indices. split; [|exact Hloop].
        eapply lookup_lt_Some; eassumption.
    + apply (normalize_and_or_loop_refused _ _) with (k := i) (e := c) in Hloop;
        try assumption.
      intros c0 cs0 st cs' Hstep.
      destruct (root c0) as [e0|]; [|discriminate]. cbn [mbind option_bind] in Hstep.
      destruct (_normalize_and_or_predicate_total opts e0 cs0) as (n' & cs1 & Hcall & _).
      congruence.
Qed.

End BuilderProperties.

(* ===================================================================== *)
(** * The properties on sample inputs *)
(* ===================================================================== *)

(** The whole pass over [a = 1 OR b < 2 OR a < b]: the parse succeeds, no
    child builder is kept, and the OR is the residual list. *)
Example three_branch_or_stays_residual :
  ∃ b',
    parse_conjuncts Sample.or_options (_root_builder Sample.or_manager) = Some (Value true, b')
    ∧ _normalized_exprs b' = [false]
    ∧ _child_builders b' = []
    ∧ get_not_push_down_conjuncts b' (conjunct_ctxs_ptr Sample.or_options) []
      = Some [mkExprContext Sample.three_branch_or].
Proof. eexists. split; [vm_compute; reflexivity|]. repeat split. Qed.

Lemma or_subtree_all_or_nothing_witness :
  (∀ cs, _normalize_and_or_predicate Sample.or_options Sample.three_branch_or cs
         = Some (Value false, cs))
  ∧ ∃ res b',
      _normalize_and_or_predicates Sample.or_options (_root_builder Sample.or_manager)
      = Some (res, b')
      ∧ is_pred_normalized b' 0 = Some false
      ∧ 0%nat ∈ residual_indices b' 1.
Proof.
  destruct (or_subtree_all_or_nothing Sample.or_options Sample.three_branch_or)
    as (_ & Hrefused & Hparent).
  assert (Hverdict : ∀ cs,
            _normalize_and_or_predicate Sample.or_options Sample.three_branch_or cs
            = Some (Value false, cs)).
  { refine (Hrefused OR _ 2%nat Sample.a_lt_b _ _ _ _).
    - vm_compute. reflexivity.
    - reflexivity.
    - vm_compute. reflexivity.
    - vm_compute. reflexivity. }
  split; [exact Hverdict|].
  eexists _, _. split; [vm_compute; reflexivity|].
  refine (Hparent (_root_builder Sample.or_manager) 0%nat
            (ExprContextContainer (mkExprContext Sample.three_branch_or)) _ _ _ _ _ _ _).
  - reflexivity.
  - reflexivity.
  - reflexivity.
  - unfold and_or_verdict. now rewrite Hverdict.
  - vm_compute. reflexivity.
Defined.

(** C5, as the spec words it, fails: with the range of [a] within [1, 5] and
    the range of [b] empty, build_olap_filters returns the end-of-file
    status and leaves the two filters of [a] in [olap_filters]. *)
Lemma empty_range_keeps_earlier_filters :
  ¬ (∀ (collaborators : Collaborators) (b : ChunkPredicateBuilder),
       has_empty_range (column_value_ranges b) →
       (build_olap_filters b).1 = EOF_always_false
       ∧ olap_filters (build_olap_filters b).2 = []).
Proof.
  intros H.
  destruct (H Sample.intervals
              (Sample.builder_with_ranges [("a", Sample.a_1_5); ("b", Sample.b_empty)]))
    as [_ Hnone].
  - exists "b", Sample.b_empty. split; [|reflexivity].
    apply elem_of_cons. right. apply elem_of_cons. now left.
  - vm_compute in Hnone. discriminate Hnone.
Qed.

Lemma empty_range_short_circuits_witness :
  build_olap_filters (Sample.builder_with_ranges [("a", Sample.a_1_5); ("b", Sample.b_empty)])
  = (EOF_always_false,
     set_olap_filters
       [mkCondition "a" ">=" ["1"] false; mkCondition "a" "<=" ["5"] false]
       (Sample.builder_with_ranges [("a", Sample.a_1_5); ("b", Sample.b_empty)])).
Proof.
  refine (proj1 (empty_range_short_circuits
                   (Sample.builder_with_ranges [("a", Sample.a_1_5); ("b", Sample.b_empty)])) _).
  exists "b", Sample.b_empty. split; [|reflexivity].
  apply elem_of_cons. right. apply elem_of_cons. now left.
Defined.

Lemma get_key_ranges_default_witness :
  get_key_ranges Sample.idle_builder [] = (OK, [default_scan_range]).
Proof.
  exact (proj1 (get_key_ranges_default Sample.idle_builder [] eq_refl)).
Defined.

Lemma in_runtime_filter_is_marked_witness :
  ∃ res b',
    parse_conjuncts Sample.rf_options (_root_builder Sample.rf_manager) = Some (res, b')
    ∧ is_pred_normalized b' 0 = Some true
    ∧ ∀ num_preds, 0%nat ∉ residual_indices b' num_preds.
Proof.
  eexists _, _. split; [vm_compute; reflexivity|].
  refine (proj2 (proj2 (in_runtime_filter_is_marked Sample.rf_options
                          (_root_builder Sample.rf_manager) Sample.A_COL 0%nat
                          (ExprContextContainer (mkExprContext Sample.a_in_runtime_filter))
                          Sample.a_in_runtime_filter _ _ _ _)) _ _ _ _ _ _).
  - reflexivity.
  - reflexivity.
  - reflexivity.
  - reflexivity.
  - reflexivity.
  - apply elem_of_cons. now left.
  - reflexivity.
  - vm_compute. reflexivity.
Defined.

Lemma null_bearing_filter_binds_nothing_witness :
  bind_runtime_filter Sample.bloom_options TYPE_INT Sample.A_COL (Sample.a_1_5, [])
    Sample.null_bearing
  = (Sample.a_1_5, [])
  ∧ bind_runtime_filters Sample.bloom_options TYPE_INT Sample.A_COL Sample.a_1_5 []
    = (Sample.a_1_5, [(Sample.unpublished, Sample.A_COL)]).
Proof.
  destruct (null_bearing_filter_binds_nothing Sample.bloom_options TYPE_INT Sample.A_COL
              Sample.a_1_5 []) as (Hnull & _ & Hall).
  split.
  - exact (Hnull Sample.null_bearing (true, (2, 4)) eq_refl eq_refl).
  - refine (Hall _). repeat constructor.
Defined.

Lemma late_conjunct_is_residual_witness :
  is_pred_normalized Sample.idle_builder 0 = Some false
  ∧ 0%nat ∈ residual_indices Sample.idle_builder 1
  ∧ ∃ residual,
      get_not_push_down_conjuncts Sample.idle_builder
        [mkExprContext Sample.a_eq_1] [] = Some residual
      ∧ mkExprContext Sample.a_eq_1 ∈ residual.
Proof.
  refine (late_conjunct_is_residual Sample.idle_builder [mkExprContext Sample.a_eq_1] []
            0%nat (mkExprContext Sample.a_eq_1) _ eq_refl).
  simpl. lia.
Defined.

(* ===================================================================== *)
(** * Properties of the chunk-buffer limiter *)
(* ===================================================================== *)

Module LimiterProperties.
Import DynamicChunkBufferLimiter.

Lemma wrap_int_small (z : Z) : - 2 ^ 31 ≤ z ≤ INT_MAX → wrap_int z = z.
Proof.
  unfold wrap_int, INT_MAX. intros Hz. rewrite Z.mod_small by lia. lia.
Qed.

Lemma to_size_t_small (z : Z) : 0 ≤ z < 2 ^ 64 → to_size_t z = z.
Proof. unfold to_size_t. intros Hz. now apply Z.mod_small. Qed.

(** Adding and then subtracting the same amount restores an [int],
    even when the sum wrapped around. *)
Lemma wrap_int_add_sub (c n : Z) :
  - 2 ^ 31 ≤ c ≤ INT_MAX → wrap_int (wrap_int (c + n) - n) = c.
Proof.
  unfold wrap_int, INT_MAX. intros Hc.
  replace ((c + n + 2 ^ 31) mod 2 ^ 32 - 2 ^ 31 - n + 2 ^ 31)
    with ((c + n + 2 ^ 31) mod 2 ^ 32 - n) by lia.
  rewrite Zminus_mod_idemp_l.
  replace (c + n + 2 ^ 31 - n) with (c + 2 ^ 31) by lia.
  rewrite Z.mod_small by lia. lia.
Qed.

Lemma set_counter_same (l : Limiter) : set_counter (_pinned_chunks_counter l) l = l.
Proof. now destruct l. Qed.

(** A pin that cannot fit fails and leaves the limiter as it was, whether
    or not the tentative sum wrapped around. *)
Lemma pin_over_capacity (n : Z) (l : Limiter) :
  0 ≤ _pinned_chunks_counter l ≤ INT_MAX → 0 ≤ n ≤ INT_MAX →
  _capacity l < _pinned_chunks_counter l + n →
  ∃ dcheck, pin n l = (None, dcheck, l)
            ∧ (_pinned_chunks_counter l + n ≤ INT_MAX → 0 ≤ _capacity l → dcheck = true).
Proof.
  unfold INT_MAX. intros Hc Hn Hover. unfold pin, fetch_add, _unpin, fetch_sub.
  cbn [set_counter _capacity _pinned_chunks_counter].
  rewrite (to_size_t_small (_pinned_chunks_counter l)) by lia.
  rewrite (to_size_t_small n) by lia. rewrite to_size_t_small by lia.
  rewrite (proj2 (Z.ltb_lt _ _) Hover).
  rewrite wrap_int_add_sub by (unfold INT_MAX; lia).
  eexists. split.
  - f_equal. now destruct l.
  - intros Hsum Hcap. apply Z.leb_le. rewrite wrap_int_small by (unfold INT_MAX; lia). lia.
Qed.

Lemma pin_within_capacity (n : Z) (l : Limiter) :
  0 ≤ _pinned_chunks_counter l → 0 ≤ n →
  _pinned_chunks_counter l + n ≤ INT_MAX →
  _pinned_chunks_counter l + n ≤ _capacity l →
  pin n l = (Some (mkToken n), true, set_counter (_pinned_chunks_counter l + n) l).
Proof.
  unfold INT_MAX. intros Hc Hn Hsum Hfit. unfold pin, fetch_add.
  cbn [set_counter _capacity _pinned_chunks_counter].
  rewrite (to_size_t_small (_pinned_chunks_counter l)) by lia.
  rewrite (to_size_t_small n) by lia. rewrite to_size_t_small by lia.
  rewrite (proj2 (Z.ltb_ge _ _) Hfit).
  now rewrite wrap_int_small by (unfold INT_MAX; lia).
Qed.

Lemma _unpin_spec (n : Z) (l : Limiter) :
  _unpin n l
  = (bool_decide (1 ≤ _pinned_chunks_counter l),
     set_counter (wrap_int (_pinned_chunks_counter l - n)) l).
Proof.
  unfold _unpin, fetch_sub. f_equal.
  destruct (Z.leb_spec 1 (_pinned_chunks_counter l)).
  - now rewrite bool_decide_eq_true_2.
  - rewrite bool_decide_eq_false_2; [reflexivity | lia].
Qed.

Lemma held_chunks_delete (held : list Token) (k : nat) (tok : Token) :
  held !! k = Some tok →
  held_chunks (delete k held) = held_chunks held - num_chunks tok.
Proof.
  revert k. induction held as [|t held IH]; intros [|k] Hk; try discriminate; simpl in *.
  - injection Hk as ->. lia.
  - rewrite (IH k Hk). lia.
Qed.

Lemma held_chunks_bounds (held : list Token) (k : nat) (tok : Token) :
  Forall (λ tok, 1 ≤ num_chunks tok) held → held !! k = Some tok →
  1 ≤ num_chunks tok ≤ held_chunks held ∧ Forall (λ tok, 1 ≤ num_chunks tok) (delete k held).
Proof.
  intros Hall. revert k. induction Hall as [|t held Ht Hall IH]; intros [|k] Hk;
    try discriminate; simpl in *.
  - injection Hk as ->. split; [|assumption].
    assert (0 ≤ held_chunks held).
    { clear -Hall. induction Hall; simpl; lia. }
    lia.
  - destruct (IH k Hk) as [Hb Hd]. split; [lia|]. now constructor.
Qed.

Lemma update_avg_row_bytes_frame (a b c : Z) (l l' : Limiter) :
  update_avg_row_bytes a b c l = Some l' →
  _pinned_chunks_counter l' = _pinned_chunks_counter l
  ∧ _max_capacity l' = _max_capacity l
  ∧ (0 ≤ _capacity l ≤ _max_capacity l → 0 ≤ _capacity l' ≤ _max_capacity l').
Proof.
  unfold update_avg_row_bytes. cbn [_mem_limit _max_capacity _capacity _pinned_chunks_counter].
  destruct (_ =? 0); [intros [= <-]; simpl; auto|].
  destruct (_ =? 0); [discriminate|]. intros [= <-]. simpl.
  repeat split; try reflexivity; lia.
Qed.

Lemma call_consistent (w : World) (c : Call) :
  _max_capacity (limiter w) ≤ INT_MAX →
  consistent w → call_ok (_max_capacity (limiter w)) c = true →
  consistent (call w c) ∧ _max_capacity (limiter (call w c)) = _max_capacity (limiter w).
Proof.
  intros Hmax (Hsum & Hpos & Hc & Hcap & Hd) Hok. unfold consistent.
  destruct c as [n|k|a b c]; cbn [call call_ok] in *.
  - apply andb_true_iff in Hok as [Hn Hbound].
    apply Z.leb_le in Hn. apply Z.leb_le in Hbound.
    destruct (Z_lt_le_dec (_capacity (limiter w)) (_pinned_chunks_counter (limiter w) + n))
      as [Hover|Hfit].
    + destruct (pin_over_capacity n (limiter w)) as (dcheck & -> & Hdcheck);
        [lia .. |].
      rewrite Hdcheck by lia. cbn [limiter held dchecks]. rewrite Hd.
      split; [|reflexivity]. split; [assumption|]. split; [assumption|].
      split; [assumption|]. split; [assumption|reflexivity].
    + rewrite pin_within_capacity by lia.
      cbn [limiter held dchecks set_counter _pinned_chunks_counter _capacity _max_capacity].
      rewrite Hd. split; [|reflexivity].
      split; [cbn [held_chunks foldr num_chunks]; fold (held_chunks (held w)); lia|].
      split; [constructor; [exact Hn | exact Hpos]|].
      split; [lia|]. split; [lia|reflexivity].
  - destruct (held w !! k) as [tok|] eqn:Hk;
      [|split; [repeat split; assumption || lia | reflexivity]].
    destruct (held_chunks_bounds _ _ _ Hpos Hk) as [Hb Hdel].
    unfold release. rewrite _unpin_spec.
    cbn [limiter held dchecks set_counter _pinned_chunks_counter _capacity _max_capacity].
    rewrite wrap_int_small by (unfold INT_MAX in *; lia).
    rewrite bool_decide_eq_true_2 by lia. rewrite Hd.
    split; [|reflexivity].
    split; [rewrite (held_chunks_delete _ _ _ Hk); lia|].
    split; [assumption|]. split; [lia|]. split; [lia|reflexivity].
  - destruct (update_avg_row_bytes a b c (limiter w)) as [l'|] eqn:Hup;
      [|split; [repeat split; assumption || lia | reflexivity]].
    apply update_avg_row_bytes_frame in Hup as (Hc' & Hm' & Hcap').
    cbn [limiter held dchecks]. split; [|exact Hm'].
    split; [congruence|]. split; [assumption|].
    split; [lia|]. split; [lia|assumption].
Qed.

Lemma run_consistent (cs : list Call) :
  ∀ w, _max_capacity (limiter w) ≤ INT_MAX → consistent w →
       Forall (λ c, call_ok (_max_capacity (limiter w)) c = true) cs →
       consistent (run w cs).
Proof.
  induction cs as [|c cs IH]; intros w Hmax Hw Hok; [exact Hw|].
  apply Forall_cons in Hok as [Hc Hcs]. unfold run. cbn [fold_left].
  destruct (call_consistent w c Hmax Hw Hc) as [Hw' Hmax'].
  apply IH; [congruence | exact Hw' | now rewrite Hmax'].
Qed.

Lemma fresh_consistent (l : Limiter) : fresh l → consistent (mkWorld l [] true).
Proof.
  intros (Hzero & Hcap & Hmax). unfold consistent. simpl. rewrite Hzero.
  split; [reflexivity|]. split; [constructor|]. split; [lia|]. split; [lia|reflexivity].
Qed.

(** C9: with the counter and the request non-negative and their sum an
    [int], a pin that would pass the capacity returns null and leaves the
    limiter as it was, the assertion of the undoing _unpin holding; a pin
    that fits returns a token of [n] chunks and raises the counter by
    exactly [n]; _unpin subtracts [n] and asserts that the counter was at
    least 1 before; and from a fresh limiter, whatever the callers pin,
    release and update one after the other, the counter is the number of
    chunks held, is never negative, and no assertion fails. *)
Theorem admission_counter (n : Z) (l : Limiter) :
  0 ≤ _pinned_chunks_counter l → 0 ≤ n →
  _pinned_chunks_counter l + n ≤ INT_MAX → 0 ≤ _capacity l →
  (_capacity l < _pinned_chunks_counter l + n → pin n l = (None, true, l))
  ∧ (_pinned_chunks_counter l + n ≤ _capacity l →
     pin n l = (Some (mkToken n), true, set_counter (_pinned_chunks_counter l + n) l))
  ∧ _unpin n l
    = (bool_decide (1 ≤ _pinned_chunks_counter l),
       set_counter (wrap_int (_pinned_chunks_counter l - n)) l)
  ∧ ∀ l0 cs,
      fresh l0 → Forall (λ c, call_ok (_max_capacity l0) c = true) cs →
      let w := run (mkWorld l0 [] true) cs in
      0 ≤ _pinned_chunks_counter (limiter w)
      ∧ _pinned_chunks_counter (limiter w) = held_chunks (held w)
      ∧ dchecks w = true.
Proof.
  intros Hc Hn Hsum Hcap. split; [|split; [|split]].
  - intros Hover.
    destruct (pin_over_capacity n l) as (dcheck & Hpin & Hdcheck); [lia .. |].
    now rewrite Hpin, Hdcheck.
  - intros Hfit. now apply pin_within_capacity.
  - apply _unpin_spec.
  - intros l0 cs Hfresh Hok w.
    destruct (run_consistent cs (mkWorld l0 [] true)) as (Hheld & _ & Hpos & _ & Hd).
    + now destruct Hfresh as (_ & _ & Hmax).
    + now apply fresh_consistent.
    + exact Hok.
    + subst w. split; [lia|]. split; assumption.
Qed.

End LimiterProperties.

Lemma admission_counter_witness :
  DynamicChunkBufferLimiter.pin 2 Sample.limiter_3_of_4 = (None, true, Sample.limiter_3_of_4)
  ∧ DynamicChunkBufferLimiter.pin 1 Sample.limiter_3_of_4
    = (Some (DynamicChunkBufferLimiter.mkToken 1), true,
       DynamicChunkBufferLimiter.set_counter 4 Sample.limiter_3_of_4).
Proof.
  split.
  - refine (proj1 (LimiterProperties.admission_counter 2 Sample.limiter_3_of_4 _ _ _ _) _);
      vm_compute; first [reflexivity | discriminate].
  - refine (proj1 (proj2 (LimiterProperties.admission_counter 1 Sample.limiter_3_of_4 _ _ _ _)) _);
      vm_compute; first [reflexivity | discriminate].
Defined.

(** A run of calls on a limiter of capacity 4: the third pin is refused and
    changes nothing, and after the release the counter is back to 2. *)
Example limiter_run :
  let w := DynamicChunkBufferLimiter.run
             (DynamicChunkBufferLimiter.mkWorld Sample.fresh_limiter [] true)
             [DynamicChunkBufferLimiter.CallPin 2; DynamicChunkBufferLimiter.CallPin 2;
              DynamicChunkBufferLimiter.CallPin 1; DynamicChunkBufferLimiter.CallRelease 0] in
  DynamicChunkBufferLimiter._pinned_chunks_counter (DynamicChunkBufferLimiter.limiter w) = 2
  ∧ DynamicChunkBufferLimiter.dchecks w = true.
Proof. vm_compute. split; reflexivity. Qed.


(* ===================================================================== *)
(** * Further properties of get_predicate_value *)
(* ===================================================================== *)

Lemma find_operands_arity (ValueType : CppType) (slot : SlotDescriptor) (expr : Expr)
    (reverse_op : bool) (r : Expr) (data : DataColumn) :
  find_operands ValueType slot expr = OperandsFound reverse_op r data →
  get_num_children expr = 2%nat.
Proof.
  unfold find_operands.
  destruct (get_num_children expr =? 2)%nat eqn:Harity; [|discriminate].
  intros _. now apply Nat.eqb_eq.
Qed.

(** X1: when get_predicate_value returns true, both [*value] and [*op] have
    been written, the value is of the kind the value type holds, the status
    is as it was, and the expression has two children. *)
Theorem get_predicate_value_writes_outputs (ValueType : CppType) (slot : SlotDescriptor)
    (expr : Expr) (out out' : OutParams) :
  get_predicate_value ValueType slot expr out = Some (true, out') →
  ∃ value op0,
    out_value out' = Some value ∧ out_op out' = Some op0
    ∧ datum_of_type ValueType value
    ∧ out_status out' = out_status out
    ∧ get_num_children expr = 2%nat.
Proof.
  unfold get_predicate_value.
  destruct (find_operands ValueType slot expr) as [| |reverse_op r data] eqn:Hfound;
    try discriminate.
  apply find_operands_arity in Hfound. unfold extract_value.
  destruct ValueType as [| |is_decimal]; destruct data as [ts|d|str|raw]; try discriminate.
  - case_bool_decide.
    + destruct (extracted_op expr reverse_op); intros [= <-]; simpl; eauto 10.
    + intros [= <-]. simpl. eauto 10.
  - intros [= <-]. simpl. eauto 10.
  - intros [= <-]. simpl. eauto 10.
  - destruct (is_decimalv3_type (type r)); intros H; simplify_eq; simpl; eauto 10.
Qed.

Lemma get_predicate_value_writes_outputs_witness :
  ∃ value op0,
    out_value (mkOut (Some (DDate Sample.d_2020_01_01)) (Some FILTER_LARGER) OK) = Some value
    ∧ out_op (mkOut (Some (DDate Sample.d_2020_01_01)) (Some FILTER_LARGER) OK) = Some op0
    ∧ datum_of_type CppDateValue value
    ∧ out_status (mkOut (Some (DDate Sample.d_2020_01_01)) (Some FILTER_LARGER) OK)
      = out_status Sample.fresh_out
    ∧ get_num_children (Sample.date_col_vs_timestamp TExprOpcode.GE) = 2%nat.
Proof.
  exact (get_predicate_value_writes_outputs CppDateValue Sample.DATE_COL
           (Sample.date_col_vs_timestamp TExprOpcode.GE) Sample.fresh_out _ eq_refl).
Defined.

Lemma mirror_opcode_reverses (o : TExprOpcode.type) :
  (if bool_decide (mirror_opcode o = TExprOpcode.EQ) || bool_decide (mirror_opcode o = TExprOpcode.NE)
   then to_olap_filter_type (mirror_opcode o) false
   else to_olap_filter_type (mirror_opcode o) true)
  = (if bool_decide (o = TExprOpcode.EQ) || bool_decide (o = TExprOpcode.NE)
     then to_olap_filter_type o false
     else to_olap_filter_type o false).
Proof. destruct o; reflexivity. Qed.

(** X2: the order of the operands does not matter: with the constant on the
    left and the slot on the right, the exchanged comparison ([5 > c] for
    [c < 5]) is extracted exactly as the comparison with the slot first. *)
Theorem operand_order_is_immaterial (ValueType : CppType) (slot : SlotDescriptor)
    (expr l r : Expr) (out : OutParams) :
  children expr = [l; r] → is_constant r = true → is_constant l = false →
  get_predicate_value ValueType slot (mirror expr) out
  = get_predicate_value ValueType slot expr out.
Proof.
  intros Hchildren Hr Hl.
  assert (Hop : extracted_op (mirror expr) true = extracted_op expr false).
  { unfold extracted_op, mirror. rewrite Hchildren. cbn [op].
    rewrite mirror_opcode_reverses. now destruct (_ || _). }
  assert (Hfind : ∀ reverse_op r0 data,
            find_operands ValueType slot expr = OperandsFound reverse_op r0 data →
            reverse_op = false
            ∧ find_operands ValueType slot (mirror expr) = OperandsFound true r0 data).
  { unfold find_operands, get_num_children, get_child, mirror. rewrite Hchildren.
    cbn [children length lookup list_lookup Nat.eqb negb]. rewrite Hr, Hl. cbn [negb].
    intros reverse_op r0 data.
    repeat match goal with
      | |- context [if ?c then _ else _] => destruct c; try discriminate
      | |- context [match ?o with Some _ => _ | None => _ end] => destruct o; try discriminate
      end; intros [= <- <- <-]; split; reflexivity. }
  assert (Hother : ∀ res, (res = OperandsUndefined ∨ res = OperandsRejected) →
            find_operands ValueType slot expr = res →
            find_operands ValueType slot (mirror expr) = res).
  { unfold find_operands, get_num_children, get_child, mirror. rewrite Hchildren.
    cbn [children length lookup list_lookup Nat.eqb negb]. rewrite Hr, Hl. cbn [negb].
    intros res Hres.
    repeat match goal with
      | |- context [if ?c then _ else _] => destruct c
      | |- context [match ?o with Some _ => _ | None => _ end] => destruct o
      end; intros <-; try reflexivity; destruct Hres; discriminate. }
  unfold get_predicate_value.
  destruct (find_operands ValueType slot expr) as [| |reverse_op r0 data] eqn:Hfound.
  - now rewrite (Hother OperandsUndefined (or_introl eq_refl) eq_refl).
  - now rewrite (Hother OperandsRejected (or_intror eq_refl) eq_refl).
  - destruct (Hfind _ _ _ eq_refl) as [-> ->]. now rewrite Hop.
Qed.

Lemma operand_order_is_immaterial_witness :
  get_predicate_value (CppScalar false) Sample.A_COL (mirror Sample.a_lt_5) Sample.fresh_out
  = get_predicate_value (CppScalar false) Sample.A_COL Sample.a_lt_5 Sample.fresh_out.
Proof.
  exact (operand_order_is_immaterial (CppScalar false) Sample.A_COL Sample.a_lt_5
           (Sample.slot_ref 10 Sample.int_type)
           (Sample.literal Sample.int_type (FixedColumn 5)) Sample.fresh_out
           eq_refl eq_refl eq_refl).
Defined.

(** X3: on a DATE slot compared with a timestamp constant whose time of day
    is not negative, what get_predicate_value extracts means the same as the
    comparison it was given: when it returns true, a date satisfies the
    extracted operator and date exactly when its midnight satisfies the
    original operator against the timestamp; when it returns false, the
    original comparison is the same for every date (never true for an
    equality, always true for an inequality). *)
Theorem date_rewrite_preserves_meaning (slot : SlotDescriptor) (expr : Expr)
    (out : OutParams) (reverse_op : bool) (r : Expr) (ts : TimestampValue) :
  find_operands CppDateValue slot expr = OperandsFound reverse_op r (TimestampColumn ts) →
  0 ≤ ts_time ts →
  ∃ (accepted : bool) (out' : OutParams),
    get_predicate_value CppDateValue slot expr out = Some (accepted, out')
    ∧ if accepted then
        ∃ value op0,
          out_value out' = Some (DDate value) ∧ out_op out' = Some op0
          ∧ ∀ column : DateValue,
              date_satisfies op0 column value
              ↔ timestamp_satisfies (extracted_op expr reverse_op)
                                    (date_to_timestamp column) ts
      else
        ∀ column : DateValue,
          timestamp_satisfies (extracted_op expr reverse_op) (date_to_timestamp column) ts
          ↔ extracted_op expr reverse_op = FILTER_NOT_IN.
Proof.
  intros Hfound Htime. unfold get_predicate_value. rewrite Hfound. unfold extract_value.
  destruct ts as [day time]. cbn [ts_time] in Htime.
  unfold date_to_timestamp, timestamp_to_date. cbn [ts_julian _julian].
  case_bool_decide as Hlossy.
  - assert (Hpos : 0 < time).
    { destruct (decide (time = 0)) as [->|]; [now contradict Hlossy | lia]. }
    destruct (extracted_op expr reverse_op); eexists _, _; (split; [reflexivity|]);
      cbn beta iota; try (eexists _, _; split; [reflexivity|]; split; [reflexivity|]);
      intros [column]; unfold date_satisfies, timestamp_satisfies, timestamp_lt;
      cbn [ts_julian ts_time _julian];
      try lia.
    + split; [intros [= _ Hzero]; lia | discriminate].
    + split; [reflexivity | intros _ [= _ Hzero]; lia].
  - assert (time = 0) as ->.
    { now injection Hlossy. }
    eexists _, _. split; [reflexivity|]. cbn beta iota.
    eexists _, _. split; [reflexivity|]. split; [reflexivity|].
    intros [column]. destruct (extracted_op expr reverse_op);
      unfold date_satisfies, timestamp_satisfies, timestamp_lt;
      cbn [ts_julian ts_time _julian]; try lia.
    + split; [intros ->; reflexivity | intros [= ->]; reflexivity].
    + split; [intros Hne [= Heq]; now apply Hne | intros Hne Heq; apply Hne; now rewrite Heq].
Qed.

Lemma date_rewrite_preserves_meaning_witness :
  ∃ (accepted : bool) (out' : OutParams),
    get_predicate_value CppDateValue Sample.DATE_COL
      (Sample.date_col_vs_timestamp TExprOpcode.GE) Sample.fresh_out = Some (accepted, out')
    ∧ if accepted then
        ∃ value op0,
          out_value out' = Some (DDate value) ∧ out_op out' = Some op0
          ∧ ∀ column : DateValue,
              date_satisfies op0 column value
              ↔ timestamp_satisfies FILTER_LARGER_OR_EQUAL
                                    (date_to_timestamp column) Sample.ts_2020_01_01_01_00_00
      else
        ∀ column : DateValue,
          timestamp_satisfies FILTER_LARGER_OR_EQUAL (date_to_timestamp column)
                              Sample.ts_2020_01_01_01_00_00
          ↔ FILTER_LARGER_OR_EQUAL = FILTER_NOT_IN.
Proof.
  refine (date_rewrite_preserves_meaning Sample.DATE_COL
            (Sample.date_col_vs_timestamp TExprOpcode.GE) Sample.fresh_out false
            (Sample.literal Sample.datetime (TimestampColumn Sample.ts_2020_01_01_01_00_00))
            Sample.ts_2020_01_01_01_00_00 eq_refl _).
  simpl. lia.
Defined.

(* ===================================================================== *)
(** * Further properties of the builder *)
(* ===================================================================== *)

Section FurtherBuilderProperties.

Context {collaborators : Collaborators}.

Implicit Types (b : ChunkPredicateBuilder) (opts : OlapScanConjunctsManagerOptions).
Implicit Types (fl : list bool) (i j : nat).

#[local] Existing Instance flags_grow_preorder.
#[local] Existing Instance builder_grows_preorder.
#[local] Existing Instance pass_grows_preorder.
#[local] Existing Instance fst_grows_preorder.

Lemma normalize_expressions_grows opts b b1 :
  normalize_expressions opts b = Some b1 → builder_grows b b1.
Proof.
  unfold normalize_expressions. intros H.
  now apply (normalize_expressions_fold_grows opts (decoded_slots opts)) in H as [H _].
Qed.

(** X4: whatever parse_conjuncts returns, in either mode, the builder it
    leaves has the same conjuncts and the same mode, a flag vector of the
    same size, and every flag that was set still set. *)
Theorem parse_conjuncts_only_sets_flags opts b res b' :
  parse_conjuncts opts b = Some (res, b') →
  _exprs b' = _exprs b
  ∧ _allow_partial_normalized b' = _allow_partial_normalized b
  ∧ length (_normalized_exprs b') = length (_normalized_exprs b)
  ∧ ∀ j, _normalized_exprs b !! j = Some true → _normalized_exprs b' !! j = Some true.
Proof.
  intros Hparse.
  assert (Hgrow : builder_grows b b').
  { destruct (_allow_partial_normalized b) eqn:Hpartial.
    - destruct (parse_conjuncts_after_normalize _ _ _ _ Hpartial Hparse) as (b1 & Hnorm & Hrest).
      transitivity b1; [exact (normalize_expressions_grows opts _ _ Hnorm) | exact Hrest].
    - unfold parse_conjuncts in Hparse. rewrite Hpartial in Hparse.
      cbn [mbind option_bind ok negb] in Hparse.
      destruct (enable_column_expr_predicate opts).
      + destruct (build_column_expr_predicates opts b) as [b1|] eqn:Hcol; [|discriminate].
        cbn [mbind option_bind] in Hparse.
        apply build_column_expr_predicates_grows in Hcol.
        apply _normalize_and_or_predicates_grows in Hparse. now transitivity b1.
      + cbn [mbind option_bind] in Hparse.
        now apply _normalize_and_or_predicates_grows in Hparse. }
  destruct Hgrow as (He & Ha & Hl & Hf). repeat split; assumption.
Qed.

Lemma add_fixed_values_and_mark_frame (op0 : SQLFilterOp) (values : list Datum) i j
    (s : Pass) :
  j ≠ i → flags (add_fixed_values_and_mark op0 values i s) !! j = flags s !! j.
Proof.
  intros Hne. unfold add_fixed_values_and_mark.
  destruct (add_fixed_values op0 values (range s)) as [st r]. simpl.
  destruct (ok st); [|reflexivity]. now apply list_lookup_insert_ne.
Qed.

Lemma fold_predicate_value_frame (ValueType : CppType) (slot : SlotDescriptor)
    (root_expr : Expr) i j fold (s s' : Pass) :
  fold_predicate_value ValueType slot root_expr i fold s = Some s' →
  j ≠ i → flags s' !! j = flags s !! j.
Proof.
  unfold fold_predicate_value. intros H Hne.
  destruct (get_predicate_value _ _ _ _) as [[[|] out]|]; [| |discriminate].
  - destruct (out_value out), (out_op out); try discriminate.
    destruct (fold _ _ _) as [st r]. injection H as <-. simpl.
    destruct (ok st); [|reflexivity]. now apply list_lookup_insert_ne.
  - now injection H as <-.
Qed.

Lemma normalize_eq_conjunct_frame (ValueType : CppType) (slot : SlotDescriptor)
    (root_expr : Expr) i j (s s' : Pass) :
  normalize_eq_conjunct ValueType slot root_expr i s = Some s' →
  j ≠ i → flags s' !! j = flags s !! j.
Proof.
  unfold normalize_eq_conjunct. case_match.
  - apply fold_predicate_value_frame.
  - now intros [= <-].
Qed.

(** The body of the IN/equality pass for position [i] writes no other flag. *)
Lemma normalize_in_or_equal_body_frame (SlotType : LogicalType) (slot : SlotDescriptor)
    i j (c : ExprContainer) (s s' : Pass) :
  normalize_in_or_equal_body SlotType slot i c s = Some s' →
  j ≠ i → flags s' !! j = flags s !! j.
Proof.
  unfold normalize_in_or_equal_body. intros H Hne. revert H.
  repeat match goal with
    | |- Some _ = Some _ → _ => intros [= <-]; reflexivity
    | |- None = Some _ → _ => discriminate
    | |- context [mbind _ ?o] => destruct o; cbn [mbind option_bind]
    | |- context [if ?c then _ else _] => destruct c
    end;
    intros H; apply (normalize_eq_conjunct_frame _ _ _ _ j) in H; try assumption.
  rewrite H. now apply add_fixed_values_and_mark_frame.
Qed.

(** A loop whose bodies write only their own flag, and whose body at
    position [k] returns its state, leaves flag [k] as it was. *)
Lemma for_each_from_untouched {E : Type} (body : nat → E → Pass → option Pass) (k : nat) :
  (∀ i e s s', i ≠ k → body i e s = Some s' → flags s' !! k = flags s !! k) →
  ∀ es i0 s s',
    for_each_from body i0 es s = Some s' →
    (∀ e s1, (i0 ≤ k)%nat → es !! (k - i0)%nat = Some e → body k e s1 = Some s1) →
    flags s' !! k = flags s !! k.
Proof.
  intros Hframe es. induction es as [|e es IH]; intros i0 s s'; simpl.
  - intros [= <-] _. reflexivity.
  - destruct (body i0 e s) as [s1|] eqn:Hbody; [|discriminate].
    intros Hrest Hk. transitivity (flags s1 !! k).
    + apply (IH _ _ _ Hrest). intros e' s2 Hle Hlook. apply Hk; [lia|].
      replace (k - i0)%nat with (S (k - S i0)) by lia. exact Hlook.
    + destruct (decide (i0 = k)) as [->|Hne].
      * rewrite (Hk e s (Nat.le_refl k)) in Hbody; [now injection Hbody as <-|].
        now rewrite Nat.sub_diag.
      * now apply (Hframe i0 e).
Qed.

(** X5: an IN predicate on the slot that is a join runtime filter, is a
    NOT IN, holds NULL, or has more values than the cap is left alone by the
    IN/equality pass of a slot that is not a DATE: its body returns the state
    it was given, without trying the equality part, and after the whole pass
    the conjunct's flag is what it was before. *)
Theorem deferred_in_predicate_is_untouched (SlotType : LogicalType) (slot : SlotDescriptor)
    (c : ExprContainer) (pred : InPredicate) :
  SlotType ≠ TYPE_DATE →
  is_in_predicate_of slot c = Some pred →
  is_join_runtime_filter pred || in_set_skipped pred = true →
  (∀ i (s : Pass), normalize_in_or_equal_body SlotType slot i c s = Some s)
  ∧ ∀ (exprs : list ExprContainer) i fl (r : ColumnValueRange) fl' r',
      exprs !! i = Some c →
      normalize_in_or_equal_predicate SlotType slot exprs fl r = Some (fl', r') →
      fl' !! i = fl !! i.
Proof.
  intros Hdate Hin Hdeferred.
  assert (Hbody : ∀ i (s : Pass), normalize_in_or_equal_body SlotType slot i c s = Some s).
  { intros i s. unfold normalize_in_or_equal_body, is_in_predicate_of in *.
    destruct (normalized_at (flags s) i); [reflexivity|].
    destruct (root c) as [root_expr|]; [|discriminate]. cbn [mbind option_bind].
    destruct (bool_decide (op root_expr = TExprOpcode.FILTER_IN)); [|discriminate].
    destruct (get_child root_expr 0) as [l|]; [|discriminate]. cbn [mbind option_bind].
    destruct (is_slotref l); [|discriminate]. cbn [negb andb orb] in *.
    destruct (type_mismatch slot l); [discriminate|]. cbn [negb andb orb] in *.
    destruct (slot_matches slot l); [|discriminate]. injection Hin as <-.
    unfold in_set_skipped in Hdeferred.
    destruct (is_join_runtime_filter (in_predicate root_expr)); [reflexivity|].
    cbn [orb] in Hdeferred. now rewrite Hdeferred. }
  split; [exact Hbody|].
  intros exprs i fl r fl' r' Hc.
  unfold normalize_in_or_equal_predicate, normalize_in_or_equal_generic.
  rewrite bool_decide_eq_false_2 by exact Hdate. unfold for_each.
  destruct (for_each_from _ _ _ _) as [s'|] eqn:Hloop; [|discriminate].
  cbn [mbind option_bind]. intros [= <- _].
  apply (for_each_from_untouched _ i) in Hloop; [exact Hloop| |].
  - intros i0 e s s0 Hne Hb. now apply (normalize_in_or_equal_body_frame _ _ _ _ _ _ _ Hb).
  - intros e s1 _. rewrite Nat.sub_0_r, Hc. intros [= <-]. apply Hbody.
Qed.

Definition is_null_condition_of (slot : SlotDescriptor) (cond : TCondition) : Prop :=
  column_name cond = col_name slot ∧ condition_op cond = "is"
  ∧ length (condition_values cond) = 1%nat ∧ is_index_filter_only cond = false.

Lemma normalize_is_null_from_appends (slot : SlotDescriptor) (exprs : list ExprContainer) :
  ∀ fl (nulls : list TCondition) i fl' nulls',
    for_each_from (normalize_is_null_body slot) i exprs (fl, nulls) = Some (fl', nulls') →
    ∃ added, nulls' = nulls ++ added ∧ Forall (is_null_condition_of slot) added.
Proof.
  induction exprs as [|c exprs IH]; intros fl nulls i fl' nulls'; cbn [for_each_from].
  - intros [= <- <-]. exists []. now rewrite app_nil_r.
  - destruct (normalize_is_null_body slot i c (fl, nulls)) as [[fl1 nulls1]|] eqn:Hbody;
      [|discriminate].
    intros Hrest. destruct (IH _ _ _ _ _ Hrest) as (added & -> & Hadded).
    assert (Hstep : nulls1 = nulls
                    ∨ ∃ str, nulls1 = nulls ++ [mkCondition (col_name slot) "is" [str] false]).
    { revert Hbody. unfold normalize_is_null_body.
      repeat match goal with
        | |- Some _ = Some _ → _ => intros [= <- <-]
        | |- None = Some _ → _ => discriminate
        | |- context [mbind _ ?o] => destruct o; cbn [mbind option_bind]
        | |- context [if ?c then _ else _] => destruct c
        | |- context [match ?o with Some _ => _ | None => _ end] => destruct o
        end; eauto. }
    destruct Hstep as [->|[str ->]].
    + exists added. split; [reflexivity | exact Hadded].
    + eexists (_ :: added). split; [now rewrite <- app_assoc|].
      constructor; [repeat split | exact Hadded].
Qed.

(** X6: the IS NULL pass only appends to the null conditions, and each
    condition it appends names the slot's column, has the operator "is" and
    one operand, and is not index-filter-only. *)
Theorem is_null_conditions_are_appended (slot : SlotDescriptor)
    (exprs : list ExprContainer) fl (nulls : list TCondition) fl' nulls' :
  normalize_is_null_predicate slot exprs fl nulls = Some (fl', nulls') →
  ∃ added,
    nulls' = nulls ++ added
    ∧ Forall (λ cond, column_name cond = col_name slot ∧ condition_op cond = "is"
                      ∧ length (condition_values cond) = 1%nat
                      ∧ is_index_filter_only cond = false) added.
Proof. apply normalize_is_null_from_appends. Qed.

Lemma before_first_empty_none (ranges : list (string * ColumnValueRange)) :
  ¬ has_empty_range ranges → before_first_empty ranges = ranges.
Proof.
  induction ranges as [|[name r] ranges IH]; intros Hnone; [reflexivity|]. simpl.
  destruct (is_empty_value_range r) eqn:Hr.
  - exfalso. apply Hnone. exists name, r. split; [now left | exact Hr].
  - f_equal. apply IH. intros (name' & r' & Hin & Hr'). apply Hnone.
    exists name', r'. split; [now right | exact Hr'].
Qed.

(** X7: when no range is empty, build_olap_filters succeeds and
    [olap_filters] becomes the filters of all the ranges in the order of the
    range map, whatever it held before the call. *)
Theorem build_olap_filters_collects_all b (earlier : list TCondition) :
  ¬ has_empty_range (column_value_ranges b) →
  build_olap_filters (set_olap_filters earlier b)
  = (OK, set_olap_filters (filters_of (column_value_ranges b)) b).
Proof.
  intros Hnone. unfold build_olap_filters. cbn [set_olap_filters column_value_ranges].
  rewrite build_olap_filters_from_spec.
  rewrite bool_decide_eq_false_2 by (intros H; apply Hnone; now apply has_empty_range_Exists).
  now rewrite before_first_empty_none.
Qed.

Lemma map_count_map_at {V : Type} (m : list (string * V)) (k : string) :
  map_count m k ≠ 0%nat → is_Some (map_at m k).
Proof.
  induction m as [|[k' v'] m IH]; simpl; [congruence|].
  destruct (String.eqb k k'); eauto.
Qed.

Lemma map_count_map_store {V : Type} (m : list (string * V)) (k k0 : string) (v : V) :
  map_count (map_store m k0 v) k = map_count m k.
Proof.
  induction m as [|[k' v'] m IH]; simpl; [reflexivity|].
  destruct (String.eqb k0 k'); simpl; [reflexivity|].
  destruct (String.eqb k k'); [reflexivity | exact IH].
Qed.

(** X8: conditional_key_columns counts the leading key columns that have a
    range and stops at the first one that has none: every key column in
    front of the count has a range, and the key column at the count, if
    there is one, has none. *)
Theorem conditional_key_columns_is_a_prefix (ranges : list (string * ColumnValueRange))
    (names : list string) :
  (conditional_key_columns ranges names ≤ length names)%nat
  ∧ (∀ k name, (k < conditional_key_columns ranges names)%nat → names !! k = Some name →
               map_count ranges name ≠ 0%nat)
  ∧ (∀ name, names !! conditional_key_columns ranges names = Some name →
             map_count ranges name = 0%nat).
Proof.
  induction names as [|name0 names (IHle & IHin & IHout)]; simpl.
  - split; [lia|]. split; [intros k name Hk; lia | discriminate].
  - destruct (map_count ranges name0 =? 0)%nat eqn:Hcount.
    + apply Nat.eqb_eq in Hcount. split; [lia|].
      split; [intros k name Hk; lia|]. now intros name [= <-].
    + apply Nat.eqb_neq in Hcount. split; [lia|]. split.
      * intros [|k] name Hk; simpl; [now intros [= <-]|]. apply IHin. lia.
      * exact IHout.
Qed.

Lemma extend_scan_keys_total (names : list string) (max_scan_key_num : Z) :
  ∀ keys (ranges : list (string * ColumnValueRange)),
    Forall (λ name, map_count ranges name ≠ 0%nat) names →
    is_Some (extend_scan_keys names max_scan_key_num (keys, ranges)).
Proof.
  induction names as [|name names IH]; intros keys ranges Hall; simpl; [eauto|].
  apply Forall_cons in Hall as [Hname Hall].
  destruct (has_range_value keys); [eauto|].
  destruct (map_count_map_at _ _ Hname) as [r ->]. cbn [mbind option_bind].
  destruct (extend_scan_key r max_scan_key_num keys) as [st [keys' r']].
  destruct (ok st); cbn [negb]; [|eauto].
  apply IH. eapply Forall_impl; [exact Hall|]. intros name' Hn. cbn beta.
  now rewrite map_count_map_store.
Qed.

(** X9: build_scan_keys meets no undefined lookup and always returns OK,
    also when extending a scan key fails; it leaves the conjuncts, the flags
    and the filters alone; and with fewer than two leading key columns that
    have a range, unless config allows a single one, it only records whether
    the keys are convertible. *)
Theorem build_scan_keys_always_ok opts (unlimited : bool) (max_scan_key_num : Z) b :
  ∃ b',
    build_scan_keys opts unlimited max_scan_key_num b = Some (OK, b')
    ∧ _exprs b' = _exprs b
    ∧ _normalized_exprs b' = _normalized_exprs b
    ∧ olap_filters b' = olap_filters b
    ∧ (enable_short_key_for_one_column_filter = false →
       (conditional_key_columns (column_value_ranges b) (key_column_names opts) ≤ 1)%nat →
       b' = set_scan_keys (set_is_convertible unlimited (scan_keys b)) b).
Proof.
  unfold build_scan_keys.
  cbn [set_scan_keys column_value_ranges scan_keys].
  set (n := conditional_key_columns (column_value_ranges b) (key_column_names opts)).
  destruct (enable_short_key_for_one_column_filter || (1 <? n)%nat) eqn:Hgo.
  - destruct (extend_scan_keys_total (take n (key_column_names opts)) max_scan_key_num
                (set_is_convertible unlimited (scan_keys b)) (column_value_ranges b))
      as [[keys ranges] Hext].
    { apply Forall_forall. intros name Hin.
      apply list_elem_of_lookup in Hin as [k Hk].
      apply lookup_take_Some in Hk as [Hk Hlt].
      destruct (conditional_key_columns_is_a_prefix (column_value_ranges b)
                  (key_column_names opts)) as (_ & Hin & _).
      now apply (Hin k name). }
    rewrite Hext. cbn [mbind option_bind]. eexists. split; [reflexivity|].
    repeat split. intros Hconfig Hn. rewrite Hconfig in Hgo. cbn [orb] in Hgo.
    apply Nat.ltb_lt in Hgo. lia.
  - eexists. split; [reflexivity|]. repeat split.
Qed.

(** X10: the residual list is what the vector handed in already held,
    followed by the conjuncts at the positions whose flag is not set, in the
    order of the conjunct list; a conjunct is taken exactly when
    is_pred_normalized answers false for its position. *)
Theorem residual_list_is_the_unflagged_conjuncts b (conjunct_ctxs predicates : list ExprContext) :
  get_not_push_down_conjuncts b conjunct_ctxs predicates
  = Some (predicates ++ omap (λ j, conjunct_ctxs !! j)
                             (residual_indices b (length conjunct_ctxs)))
  ∧ ∀ i, i ∈ residual_indices b (length conjunct_ctxs)
         ↔ (i < length conjunct_ctxs)%nat ∧ is_pred_normalized b i = Some false.
Proof.
  split; [apply get_not_push_down_conjuncts_spec|].
  intros i. rewrite elem_of_residual_indices, is_pred_normalized_total.
  split; intros [Hlt Hflag]; (split; [exact Hlt|]); congruence.
Qed.

Lemma get_not_push_down_conjuncts_from_unflagged b (ctxs : list ExprContext) :
  (∀ j, normalized_at (_normalized_exprs b) j = false) →
  ∀ i predicates,
    get_not_push_down_conjuncts_from b i ctxs predicates = Some (predicates ++ ctxs).
Proof.
  intros Hnone. induction ctxs as [|ctx ctxs IH]; intros i predicates; simpl.
  - now rewrite app_nil_r.
  - rewrite is_pred_normalized_total, Hnone. cbn [mbind option_bind negb].
    rewrite IH. now rewrite <- app_assoc.
Qed.

(** X11: before anything is parsed, the residual list of a manager is its
    whole conjunct list: the constructor sets no flag. *)
Theorem fresh_manager_pushes_nothing opts :
  manager_get_not_push_down_conjuncts (new_manager opts) [] = Some (conjunct_ctxs_ptr opts).
Proof.
  unfold manager_get_not_push_down_conjuncts, get_not_push_down_conjuncts.
  apply (get_not_push_down_conjuncts_from_unflagged _ _) with (predicates := []).
  intros j. simpl. unfold normalized_at. apply bool_decide_eq_false.
  intros Hj. apply lookup_replicate in Hj as [Hj _]. discriminate Hj.
Qed.

End FurtherBuilderProperties.

Lemma parse_conjuncts_only_sets_flags_witness :
  ∃ res b',
    parse_conjuncts Sample.rf_options (_root_builder Sample.rf_manager) = Some (res, b')
    ∧ _exprs b' = _exprs (_root_builder Sample.rf_manager)
    ∧ length (_normalized_exprs b') = 1%nat.
Proof.
  destruct (parse_conjuncts Sample.rf_options (_root_builder Sample.rf_manager))
    as [[res b']|] eqn:Hparse.
  - exists res, b'. split; [reflexivity|].
    destruct (parse_conjuncts_only_sets_flags _ _ _ _ Hparse) as (He & _ & Hl & _).
    split; [exact He | exact Hl].
  - vm_compute in Hparse. discriminate Hparse.
Defined.
